(** * mongo-update-upsert-demo: update versus upsert on a contact collection

    A shallow embedding of [src/demo.js] (the three-step script
    [runUpdateUpsertDemo] and [normalize]) and of the HTTP handlers of
    [src/server.js], over a sequential model of the document collection
    they talk to.

    The collection is the part of the system that is not JavaScript of
    this repository: it is modelled by the documented behaviour of
    [updateOne], [bulkWrite], [deleteMany], [countDocuments] and
    [find/sort/skip/limit] on equality filters, in its failure-free,
    one-request-at-a-time behaviour (no connectivity errors, no
    concurrent writers). *)

From Stdlib Require Import List String Ascii ZArith NArith Bool Lia Arith Sorted.
Import ListNotations.
Local Open Scope string_scope.
Local Open Scope list_scope.

(** ** Values

    What a request body (parsed JSON) and a stored document can hold.
    Numbers are kept as integers: the handlers only ever test a number
    for being zero.  [VDate] is a JavaScript [Date], as milliseconds;
    [VOid] is a driver [ObjectId]. *)

Definition ObjectId := N.

#[local] Unset Elimination Schemes.
Inductive value : Type :=
| VNull
| VBool (b : bool)
| VNum (n : Z)
| VStr (s : string)
| VDate (ms : Z)
| VOid (id : ObjectId)
| VArr (items : list value)
| VObj (props : list (string * value)).
#[local] Set Elimination Schemes.

(** An object literal, and a stored document without its [_id]: the own
    properties in order. *)
Definition fields := list (string * value).

Section ValueInduction.
Variable P : value -> Prop.
Hypothesis Hnull : P VNull.
Hypothesis Hbool : forall b, P (VBool b).
Hypothesis Hnum : forall n, P (VNum n).
Hypothesis Hstr : forall s, P (VStr s).
Hypothesis Hdate : forall ms, P (VDate ms).
Hypothesis Hoid : forall id, P (VOid id).
Hypothesis Harr : forall items, Forall P items -> P (VArr items).
Hypothesis Hobj : forall props, Forall (fun kv => P (snd kv)) props -> P (VObj props).

Fixpoint value_ind (v : value) : P v :=
  match v with
  | VNull => Hnull
  | VBool b => Hbool b
  | VNum n => Hnum n
  | VStr s => Hstr s
  | VDate ms => Hdate ms
  | VOid id => Hoid id
  | VArr items =>
      Harr items ((fix all (l : list value) : Forall P l :=
               match l with
               | [] => Forall_nil P
               | x :: r => Forall_cons x (value_ind x) (all r)
               end) items)
  | VObj props =>
      Hobj props ((fix all (l : list (string * value)) : Forall (fun kv => P (snd kv)) l :=
               match l with
               | [] => Forall_nil _
               | kv :: r => Forall_cons kv (value_ind (snd kv)) (all r)
               end) props)
  end.
End ValueInduction.

(** Structural equality of values; the collection uses it both to match
    an equality filter and to decide whether a write changed anything. *)
Fixpoint value_eqb (a b : value) : bool :=
  match a, b with
  | VNull, VNull => true
  | VBool x, VBool y => Bool.eqb x y
  | VNum x, VNum y => Z.eqb x y
  | VStr x, VStr y => String.eqb x y
  | VDate x, VDate y => Z.eqb x y
  | VOid x, VOid y => N.eqb x y
  | VArr xs, VArr ys =>
      (fix go (l1 l2 : list value) : bool :=
         match l1, l2 with
         | [], [] => true
         | x :: r1, y :: r2 => value_eqb x y && go r1 r2
         | _, _ => false
         end) xs ys
  | VObj xs, VObj ys =>
      (fix go (l1 l2 : list (string * value)) : bool :=
         match l1, l2 with
         | [], [] => true
         | (k1, x) :: r1, (k2, y) :: r2 =>
             String.eqb k1 k2 && value_eqb x y && go r1 r2
         | _, _ => false
         end) xs ys
  | _, _ => false
  end.

Fixpoint fields_eqb (l1 l2 : fields) : bool :=
  match l1, l2 with
  | [], [] => true
  | (k1, x) :: r1, (k2, y) :: r2 =>
      String.eqb k1 k2 && value_eqb x y && fields_eqb r1 r2
  | _, _ => false
  end.

(** ** JavaScript on values

    [option value] is a possibly-[undefined] value. *)

(** [!!v] *)
Definition truthy (v : option value) : bool :=
  match v with
  | None => false
  | Some VNull => false
  | Some (VBool b) => b
  | Some (VNum n) => negb (Z.eqb n 0)
  | Some (VStr s) => negb (String.eqb s "")
  | Some (VDate _) => true
  | Some (VOid _) => true
  | Some (VArr _) => true
  | Some (VObj _) => true
  end.

(** [a ?? b] *)
Definition nullish {A : Type} (a : option A) (b : A) : A :=
  match a with
  | Some x => x
  | None => b
  end.

(** Property lookup in a list of own properties. *)
Fixpoint assoc (k : string) (l : fields) : option value :=
  match l with
  | [] => None
  | (k', v) :: r => if String.eqb k k' then Some v else assoc k r
  end.

(** [v.k] for the property names the handlers read ([email], [name],
    [city], [tags]): an own property of an object, [undefined] on
    anything else. *)
Definition get_prop (k : string) (v : value) : option value :=
  match v with
  | VObj props => assoc k props
  | _ => None
  end.

(** [Array.isArray(v)] *)
Definition isArray (v : option value) : bool :=
  match v with
  | Some (VArr _) => true
  | _ => false
  end.

(** ** The collection

    Documents in insertion order; [next_oid] stands for the driver's
    generator of fresh [ObjectId]s. *)

Record document : Type := Doc { doc_id : ObjectId; doc_fields : fields }.

Record collection : Type := Col { docs : list document; next_oid : ObjectId }.

Definition empty_collection : collection := Col [] 0%N.

(** A stored value satisfies the equality condition [q] when it is [q],
    or is an array with an element that is [q]. *)
Definition value_matches (q stored : value) : bool :=
  value_eqb stored q ||
  match stored with
  | VArr items => existsb (fun x => value_eqb x q) items
  | _ => false
  end.

(** A missing field satisfies only the condition [null]. *)
Definition field_matches (q : value) (stored : option value) : bool :=
  match stored with
  | Some s => value_matches q s
  | None => value_eqb q VNull
  end.

(** A filter is an object of equality conditions, as every filter of the
    source is ([{ email }], [{ city }], [{ tags }], [{}]).  A condition
    that is itself an object is compared as a value: query operators are
    not modelled.  The source writes none, but [/upsert-contact] passes
    on the [email] it is given; what is stated of the contact that
    handler affects is stated for an [email] that is not an object or an
    array. *)
Definition doc_matches (filter : fields) (d : document) : bool :=
  forallb (fun kq => field_matches (snd kq) (assoc (fst kq) (doc_fields d))) filter.

Definition has_field (k : string) (l : fields) : bool :=
  existsb (fun kv => String.eqb k (fst kv)) l.

(** [$set] of one field: overwrite where the field is (a document has
    a field once), append where it is not.  New fields are appended in the order they are written; the
    order the server gives to new fields is not modelled, nothing below
    reads it. *)
Definition set_field (k : string) (v : value) (l : fields) : fields :=
  if has_field k l
  then map (fun kv => if String.eqb k (fst kv) then (fst kv, v) else kv) l
  else l ++ [(k, v)].

Definition apply_set (s : fields) (l : fields) : fields :=
  fold_left (fun acc kv => set_field (fst kv) (snd kv) acc) s l.

(** The update document [{ $set, $setOnInsert }]. *)
Record update : Type := Update { u_set : fields; u_setOnInsert : fields }.

(** The driver's [UpdateResult]. *)
Module Driver.
Record UpdateResult : Type := {
  matchedCount : nat;
  modifiedCount : nat;
  upsertedCount : nat;
  upsertedId : option ObjectId
}.
End Driver.

(** The first document matching [filter], rewritten by [$set]; with it,
    whether the rewrite changed the document. *)
Fixpoint update_first (filter s : fields) (ds : list document)
  : option (list document * bool) :=
  match ds with
  | [] => None
  | d :: r =>
      if doc_matches filter d then
        let d' := Doc (doc_id d) (apply_set s (doc_fields d)) in
        Some (d' :: r, negb (fields_eqb (doc_fields d') (doc_fields d)))
      else
        match update_first filter s r with
        | Some (r', changed) => Some (d :: r', changed)
        | None => None
        end
  end.

(** The document an upsert inserts: the filter's equality fields, then
    [$set], then [$setOnInsert]; every condition of a filter is an
    equality here, and the fields are in the order of writing. *)
Definition upsert_doc (id : ObjectId) (filter : fields) (u : update) : document :=
  Doc id (apply_set (u_setOnInsert u) (apply_set (u_set u) (apply_set filter []))).

(** ** Store operations as state transformers *)

Definition M (A : Type) : Type := collection -> A * collection.

Definition ret {A : Type} (a : A) : M A := fun c => (a, c).

Definition bind {A B : Type} (m : M A) (k : A -> M B) : M B :=
  fun c => let (a, c') := m c in k a c'.

Declare Scope store_scope.
Delimit Scope store_scope with store.
Notation "x <- m ;; k" := (bind m (fun x => k))
  (at level 61, m at next level, right associativity) : store_scope.
Notation "m ;;; k" := (bind m (fun _ => k))
  (at level 61, right associativity) : store_scope.
Local Open Scope store_scope.

(** [col.updateOne(filter, update, { upsert })] *)
Definition updateOne (filter : fields) (u : update) (upsert : bool)
  : M Driver.UpdateResult :=
  fun c =>
    match update_first filter (u_set u) (docs c) with
    | Some (ds, changed) =>
        ({| Driver.matchedCount := 1;
            Driver.modifiedCount := if changed then 1 else 0;
            Driver.upsertedCount := 0;
            Driver.upsertedId := None |},
         Col ds (next_oid c))
    | None =>
        if upsert then
          ({| Driver.matchedCount := 0; Driver.modifiedCount := 0; Driver.upsertedCount := 1;
              Driver.upsertedId := Some (next_oid c) |},
           Col (docs c ++ [upsert_doc (next_oid c) filter u]) (N.succ (next_oid c)))
        else
          ({| Driver.matchedCount := 0; Driver.modifiedCount := 0; Driver.upsertedCount := 0;
              Driver.upsertedId := None |}, c)
    end.

(** [col.deleteMany({})] *)
Definition deleteMany_all : M unit :=
  fun c => (tt, Col [] (next_oid c)).

(** [col.countDocuments(filter)] *)
Definition countDocuments (filter : fields) : M nat :=
  fun c => (List.length (List.filter (doc_matches filter) (docs c)), c).

(** The driver's [BulkWriteResult], as far as the source reads it. *)
Record BulkWriteResult : Type := {
  b_matchedCount : nat;
  b_modifiedCount : nat;
  b_upsertedCount : nat
}.

(** [col.bulkWrite(ops, { ordered: false })] for [updateOne] operations
    with [upsert: true]; the operations are applied in list order. *)
Fixpoint bulkWrite (ops : list (fields * update)) : M BulkWriteResult :=
  match ops with
  | [] => ret {| b_matchedCount := 0; b_modifiedCount := 0; b_upsertedCount := 0 |}
  | (f, u) :: rest =>
      r <- updateOne f u true ;;
      b <- bulkWrite rest ;;
      ret {| b_matchedCount := Driver.matchedCount r + b_matchedCount b;
             b_modifiedCount := Driver.modifiedCount r + b_modifiedCount b;
             b_upsertedCount := Driver.upsertedCount r + b_upsertedCount b |}
  end.

(** ** Reading: [find], [sort({ email: 1 })], [skip], [limit] *)

(** The store's comparison order on values: first by type (null,
    numbers, strings, objects, arrays, ObjectId, booleans, dates), then
    within the type; strings by their bytes. *)
Definition type_rank (v : value) : Z :=
  match v with
  | VNull => 1
  | VNum _ => 2
  | VStr _ => 3
  | VObj _ => 4
  | VArr _ => 5
  | VOid _ => 7
  | VBool _ => 8
  | VDate _ => 9
  end%Z.

Definition then_compare (c d : comparison) : comparison :=
  match c with
  | Eq => d
  | _ => c
  end.

Fixpoint value_compare (a b : value) : comparison :=
  then_compare (Z.compare (type_rank a) (type_rank b))
    match a, b with
    | VBool x, VBool y => Bool.compare x y
    | VNum x, VNum y => Z.compare x y
    | VStr x, VStr y => String.compare x y
    | VDate x, VDate y => Z.compare x y
    | VOid x, VOid y => N.compare x y
    | VArr xs, VArr ys =>
        (fix go (l1 l2 : list value) : comparison :=
           match l1, l2 with
           | [], [] => Eq
           | [], _ :: _ => Lt
           | _ :: _, [] => Gt
           | x :: r1, y :: r2 => then_compare (value_compare x y) (go r1 r2)
           end) xs ys
    | VObj xs, VObj ys =>
        (fix go (l1 l2 : list (string * value)) : comparison :=
           match l1, l2 with
           | [], [] => Eq
           | [], _ :: _ => Lt
           | _ :: _, [] => Gt
           | (k1, x) :: r1, (k2, y) :: r2 =>
               then_compare (Z.compare (type_rank x) (type_rank y))
                 (then_compare (String.compare k1 k2)
                    (then_compare (value_compare x y) (go r1 r2)))
           end) xs ys
    | _, _ => Eq
    end.

Definition value_min (a b : value) : value :=
  match value_compare b a with
  | Lt => b
  | _ => a
  end.

(** The key an ascending sort on [email] uses: a missing field counts
    as null, an array counts as its least element, and the empty array
    ([None] here) comes before everything. *)
Definition email_sort_key (d : fields) : option value :=
  match assoc "email" d with
  | None => Some VNull
  | Some (VArr []) => None
  | Some (VArr (x :: r)) => Some (fold_left value_min r x)
  | Some v => Some v
  end.

Definition key_leb (a b : option value) : bool :=
  match a, b with
  | None, _ => true
  | Some _, None => false
  | Some x, Some y =>
      match value_compare x y with
      | Gt => false
      | _ => true
      end
  end.

Fixpoint insert_by_email (d : fields) (l : list fields) : list fields :=
  match l with
  | [] => [d]
  | x :: r =>
      if key_leb (email_sort_key d) (email_sort_key x)
      then d :: l
      else x :: insert_by_email d r
  end.

Definition sort_by_email (l : list fields) : list fields :=
  fold_right insert_by_email [] l.

(** [col.find(filter, { projection: { _id: 0 } }).sort({ email: 1 })]:
    the matching documents without their [_id], by email ascending. *)
Definition find_sorted (filter : fields) : M (list fields) :=
  fun c => (sort_by_email (map doc_fields (List.filter (doc_matches filter) (docs c))), c).

(** [.skip(n).limit(m)] on the sorted documents; a limit of 0 is no limit. *)
Definition skip_limit (n m : nat) (l : list fields) : list fields :=
  let rest := skipn n l in
  if Nat.eqb m 0 then rest else firstn m rest.

(** ** JavaScript numbers of the paging code *)

Inductive number : Type :=
| NaN
| Num (z : Z).

(** Strings are JavaScript strings in UTF-8.  White space, as [trim]
    and [parseInt] understand it, is TAB, LF, VT, FF, CR and SPACE, and
    beyond ASCII U+00A0, U+1680, U+2000 to U+200A, U+2028, U+2029,
    U+202F, U+205F, U+3000 and U+FEFF. *)
Definition is_space (c : ascii) : bool :=
  let n := nat_of_ascii c in
  Nat.eqb n 32 || (Nat.leb 9 n && Nat.leb n 13).

(** U+00A0 is [C2 A0]. *)
Definition is_space2 (c1 c2 : ascii) : bool :=
  Nat.eqb (nat_of_ascii c1) 194 && Nat.eqb (nat_of_ascii c2) 160.

(** The white space of three bytes: U+1680 [E1 9A 80]; U+2000 to U+200A,
    U+2028, U+2029, U+202F [E2 80 80..8A, A8, A9, AF]; U+205F [E2 81 9F];
    U+3000 [E3 80 80]; U+FEFF [EF BB BF]. *)
Definition is_space3 (c1 c2 c3 : ascii) : bool :=
  let a := nat_of_ascii c1 in
  let b := nat_of_ascii c2 in
  let c := nat_of_ascii c3 in
  (Nat.eqb a 225 && Nat.eqb b 154 && Nat.eqb c 128) ||
  (Nat.eqb a 226 && Nat.eqb b 128 &&
     ((Nat.leb 128 c && Nat.leb c 138) || Nat.eqb c 168 || Nat.eqb c 169 ||
      Nat.eqb c 175)) ||
  (Nat.eqb a 226 && Nat.eqb b 129 && Nat.eqb c 159) ||
  (Nat.eqb a 227 && Nat.eqb b 128 && Nat.eqb c 128) ||
  (Nat.eqb a 239 && Nat.eqb b 187 && Nat.eqb c 191).

Definition digit_of (c : ascii) : option Z :=
  let n := Z.of_nat (nat_of_ascii c) in
  if (Z.leb 48 n && Z.leb n 57)%bool then Some (n - 48)%Z else None.

(** The string without its leading white space. *)
Fixpoint skip_spaces (s : string) : string :=
  match s with
  | String c1 r1 =>
      if is_space c1 then skip_spaces r1
      else
        match r1 with
        | String c2 r2 =>
            if is_space2 c1 c2 then skip_spaces r2
            else
              match r2 with
              | String c3 r3 => if is_space3 c1 c2 c3 then skip_spaces r3 else s
              | EmptyString => s
              end
        | EmptyString => s
        end
  | EmptyString => EmptyString
  end.

(** The string cut where only white space follows. *)
Fixpoint trim_end (s : string) : string :=
  match s with
  | String c r => if String.eqb (skip_spaces s) "" then "" else String c (trim_end r)
  | EmptyString => EmptyString
  end.

(** The longest prefix of decimal digits, as a number; [None] when the
    string does not start with a digit. *)
Fixpoint leading_digits (s : string) (acc : option Z) : option Z :=
  match s with
  | String c r =>
      match digit_of c with
      | Some d => leading_digits r (Some (10 * nullish acc 0 + d)%Z)
      | None => acc
      end
  | EmptyString => acc
  end.

(** [parseInt(s, 10)]: leading white space, an optional sign, then the
    digits up to the first character that is not one; [NaN] when there
    is no digit.  The result is the exact integer: it is the code's
    number wherever a double holds that integer exactly, so up to
    [2 ^ 53] in magnitude; beyond, the code's rounding is not modelled,
    and the properties of pages are stated below that bound. *)
Definition parseInt (s : string) : number :=
  let s := skip_spaces s in
  let (negative, s) :=
    match s with
    | String "-"%char r => (true, r)
    | String "+"%char r => (false, r)
    | _ => (false, s)
    end in
  match leading_digits s None with
  | Some n => Num (if negative then - n else n)
  | None => NaN
  end.

(** [Math.max(a, x)] and [Math.min(a, x)] for a number [a]: [NaN] as soon
    as an argument is [NaN]. *)
Definition Math_max (a : Z) (x : number) : number :=
  match x with
  | NaN => NaN
  | Num z => Num (Z.max a z)
  end.

Definition Math_min (a : Z) (x : number) : number :=
  match x with
  | NaN => NaN
  | Num z => Num (Z.min a z)
  end.

(** [q || dflt] on a query-string parameter ([undefined] or a string). *)
Definition or_default (q : option string) (dflt : string) : string :=
  match q with
  | Some s => if String.eqb s "" then dflt else s
  | None => dflt
  end.

(** [s.trim()] *)
Definition trim (s : string) : string :=
  trim_end (skip_spaces s).

(** ** [src/demo.js] *)

Definition hex_digit (n : N) : ascii :=
  nth (N.to_nat n)
    ["0"; "1"; "2"; "3"; "4"; "5"; "6"; "7"; "8"; "9";
     "a"; "b"; "c"; "d"; "e"; "f"]%char "0"%char.

Fixpoint hex_fixed (width : nat) (n : N) (acc : string) : string :=
  match width with
  | O => acc
  | S w => hex_fixed w (N.div n 16) (String (hex_digit (N.modulo n 16)) acc)
  end.

(** [id.toString()]: the 24 hexadecimal digits of a 12-byte [ObjectId]. *)
Definition ObjectId_toString (id : ObjectId) : string :=
  hex_fixed 24 id "".

(** The Operation Result [{ matched, modified, upsertedId }]; a [null]
    [upsertedId] is [None]. *)
Record OperationResult : Type := {
  matched : nat;
  modified : nat;
  upsertedId : option string
}.

(** [normalize(r)].  The counts of an [UpdateResult] are numbers, so
    [?? 0] keeps them; [?.toString()] applies to an id that is there and
    [?? null] leaves an absent one [null]. *)
Definition normalize (r : Driver.UpdateResult) : OperationResult :=
  {| matched := nullish (Some (Driver.matchedCount r)) 0;
     modified := nullish (Some (Driver.modifiedCount r)) 0;
     upsertedId := option_map ObjectId_toString (Driver.upsertedId r) |}.

Record Report : Type := {
  updateExisting : option OperationResult;
  updateMissingNoUpsert : option OperationResult;
  upsertMissing : option OperationResult;
  finalDocs : list fields
}.

(** [col.createIndex({ email: 1 }, { unique: true })]: no effect on the
    documents.  The rejection of a duplicate email by the index is not
    modelled: run one at a time, an upsert keyed by an email inserts only
    when no stored contact matches that email. *)
Definition createIndex_email : M unit := ret tt.

Definition aarti_filter : fields := [("email", VStr "aarti@shade.org.in")].
Definition missing_filter : fields := [("email", VStr "missing@example.com")].

Definition seed_update : update :=
  Update [] [("email", VStr "aarti@shade.org.in"); ("name", VStr "Aarti");
             ("city", VStr "Chennai")].

Definition stepA_update : update :=
  Update [("city", VStr "Chennai (Adyar)")] [].

Definition stepB_update : update :=
  Update [("city", VStr "Mumbai")] [].

(** [now] is the value of [new Date()] in step C. *)
Definition stepC_update (now : Z) : update :=
  Update [("city", VStr "Mumbai")]
         [("createdAt", VDate now); ("tags", VArr [VStr "Prospect"])].

(** [runUpdateUpsertDemo]: seed, A) update existing, B) update missing,
    C) upsert missing, snapshot. *)
Definition runUpdateUpsertDemo (now : Z) : M Report :=
  let report :=
    {| updateExisting := None; updateMissingNoUpsert := None;
       upsertMissing := None; finalDocs := [] |} in
  createIndex_email ;;;
  updateOne aarti_filter seed_update true ;;;
  r1 <- updateOne aarti_filter stepA_update false ;;
  let report :=
    {| updateExisting := Some (normalize r1);
       updateMissingNoUpsert := updateMissingNoUpsert report;
       upsertMissing := upsertMissing report; finalDocs := finalDocs report |} in
  r2 <- updateOne missing_filter stepB_update false ;;
  let report :=
    {| updateExisting := updateExisting report;
       updateMissingNoUpsert := Some (normalize r2);
       upsertMissing := upsertMissing report; finalDocs := finalDocs report |} in
  r3 <- updateOne missing_filter (stepC_update now) true ;;
  let report :=
    {| updateExisting := updateExisting report;
       updateMissingNoUpsert := updateMissingNoUpsert report;
       upsertMissing := Some (normalize r3); finalDocs := finalDocs report |} in
  all <- find_sorted [] ;;
  ret {| updateExisting := updateExisting report;
         updateMissingNoUpsert := updateMissingNoUpsert report;
         upsertMissing := upsertMissing report; finalDocs := all |}.

(** ** [src/server.js] *)

(** What a handler answers: [res.status(status).json(body)], or the
    [catch] branch, [500] with [{ ok: false, error: <message> }]. *)
Inductive response : Type :=
| Response (status : nat) (body : value)
| Failure500.

Definition ok_body (key : string) (v : value) : value :=
  VObj [("ok", VBool true); (key, v)].

Definition VNat (n : nat) : value := VNum (Z.of_nat n).

(** [withCol(fn)] *)
Definition withCol {A : Type} (fn : M A) : M A :=
  createIndex_email ;;; fn.

Definition OperationResult_value (r : OperationResult) : value :=
  VObj [("matched", VNat (matched r)); ("modified", VNat (modified r));
        ("upsertedId", match upsertedId r with Some s => VStr s | None => VNull end)].

Definition opt_result_value (r : option OperationResult) : value :=
  match r with
  | Some x => OperationResult_value x
  | None => VNull
  end.

Definition Report_value (r : Report) : value :=
  VObj [("updateExisting", opt_result_value (updateExisting r));
        ("updateMissingNoUpsert", opt_result_value (updateMissingNoUpsert r));
        ("upsertMissing", opt_result_value (upsertMissing r));
        ("finalDocs", VArr (map VObj (finalDocs r)))].

(** [POST /run-demo] *)
Definition run_demo (now : Z) : M response :=
  results <- runUpdateUpsertDemo now ;;
  ret (Response 200 (ok_body "results" (Report_value results))).

(** [POST /clear-data] *)
Definition clear_data : M response :=
  result <- withCol (deleteMany_all ;;; ret (VObj [("deleted", VBool true)])) ;;
  ret (Response 200 (ok_body "result" result)).

Definition sample (email name city tag : string) (now : Z) : fields * update :=
  ([("email", VStr email)],
   Update [] [("email", VStr email); ("name", VStr name); ("city", VStr city);
              ("tags", VArr [VStr tag]); ("createdAt", VDate now)]).

Definition sample_ops (now : Z) : list (fields * update) :=
  [sample "aarti@shade.org.in" "Aarti" "Chennai" "Volunteer" now;
   sample "rahul@example.com" "Rahul" "Bengaluru" "Donor" now;
   sample "latha@example.com" "Latha" "Mumbai" "Prospect" now].

(** [POST /insert-sample] *)
Definition insert_sample (now : Z) : M response :=
  result <- withCol (
    r <- bulkWrite (sample_ops now) ;;
    count <- countDocuments [] ;;
    ret (VObj [("bulk", VObj [("matched", VNat (b_matchedCount r));
                              ("modified", VNat (b_modifiedCount r));
                              ("upserts", VNat (b_upsertedCount r))]);
               ("total", VNat count)])) ;;
  ret (Response 200 (ok_body "result" result)).

(** [req.query] of [GET /list-contacts] when every parameter is given at
    most once, so that each is a string or absent.  Repeated and
    bracketed parameters are in [raw_query] below. *)
Record query : Type := {
  q_page : option string;
  q_pageSize : option string;
  q_city : option string;
  q_tag : option string
}.

(** [const page = Math.max(1, parseInt(req.query.page || "1", 10))] *)
Definition page (q : query) : number :=
  Math_max 1 (parseInt (or_default (q_page q) "1")).

(** [const pageSize = Math.min(100, Math.max(1, parseInt(req.query.pageSize || "10", 10)))] *)
Definition pageSize (q : query) : number :=
  Math_min 100 (Math_max 1 (parseInt (or_default (q_pageSize q) "10"))).

Definition list_filter (q : query) : fields :=
  let city := trim (or_default (q_city q) "") in
  let tag := trim (or_default (q_tag q) "") in
  (if String.eqb city "" then [] else [("city", VStr city)]) ++
  (if String.eqb tag "" then [] else [("tags", VStr tag)]).

(** [GET /list-contacts] on string parameters.  What the store answers
    when handed [NaN] for [skip] or [limit] is not decided by the
    source; the [catch] branch stands for it here, and no property reads
    the response of that branch (see [list_contacts_request]). *)
Definition list_contacts (q : query) : M response :=
  let filter := list_filter q in
  match page q, pageSize q with
  | Num p, Num ps =>
      result <- withCol (
        total <- countDocuments filter ;;
        sorted <- find_sorted filter ;;
        let docs := skip_limit (Z.to_nat ((p - 1) * ps)) (Z.to_nat ps) sorted in
        ret (VObj [("page", VNum p); ("pageSize", VNum ps);
                   ("total", VNat total); ("docs", VArr (map VObj docs))])) ;;
      ret (Response 200 (ok_body "result" result))
  | _, _ =>
      withCol (countDocuments filter ;;; ret Failure500)
  end.

(** A parameter of [req.query] as the query parser of express gives
    it: a string, an array for a repeated parameter, an object for a
    bracketed one. *)
#[local] Unset Elimination Schemes.
Inductive qvalue : Type :=
| QStr (s : string)
| QArr (items : list qvalue)
| QObj (props : list (string * qvalue)).
#[local] Set Elimination Schemes.

(** [String(v)], as [parseInt] applies it: an array is its elements
    joined by commas, an object is ["[object Object]"]. *)
Fixpoint qToString (v : qvalue) : string :=
  match v with
  | QStr s => s
  | QArr items =>
      (fix join (l : list qvalue) : string :=
         match l with
         | [] => ""
         | x :: r =>
             match r with
             | [] => qToString x
             | _ :: _ => (qToString x ++ "," ++ join r)%string
             end
         end) items
  | QObj _ => "[object Object]"
  end.

(** [v || dflt]: only the empty string and [undefined] are falsy. *)
Definition q_or_default (v : option qvalue) (dflt : string) : qvalue :=
  match v with
  | Some (QStr s) => if String.eqb s "" then QStr dflt else QStr s
  | Some x => x
  | None => QStr dflt
  end.

Record raw_query : Type := {
  r_page : option qvalue;
  r_pageSize : option qvalue;
  r_city : option qvalue;
  r_tag : option qvalue
}.

Definition raw_page (rq : raw_query) : number :=
  Math_max 1 (parseInt (qToString (q_or_default (r_page rq) "1"))).

Definition raw_pageSize (rq : raw_query) : number :=
  Math_min 100 (Math_max 1 (parseInt (qToString (q_or_default (r_pageSize rq) "10")))).

(** [(v || "").trim()]: only a string has [trim]; on an array or an
    object the call throws a [TypeError] ([None]). *)
Definition q_trim (v : option qvalue) : option string :=
  match q_or_default v "" with
  | QStr s => Some (trim s)
  | _ => None
  end.

(** [filter], from the trimmed [city] and [tag]. *)
Definition filter_of (city tag : string) : fields :=
  (if String.eqb city "" then [] else [("city", VStr city)]) ++
  (if String.eqb tag "" then [] else [("tags", VStr tag)]).

(** The store calls of [/list-contacts] and its answer, for a numeric
    page and page size. *)
Definition list_page (p ps : Z) (filter : fields) : M response :=
  result <- withCol (
    total <- countDocuments filter ;;
    sorted <- find_sorted filter ;;
    let docs := skip_limit (Z.to_nat ((p - 1) * ps)) (Z.to_nat ps) sorted in
    ret (VObj [("page", VNum p); ("pageSize", VNum ps);
               ("total", VNat total); ("docs", VArr (map VObj docs))])) ;;
  ret (Response 200 (ok_body "result" result)).

(** [GET /list-contacts] on any query.  A [city] or [tag] that is not a
    string makes [trim] throw before the store is reached, and the
    [catch] answers 500.  When the page or the page size is [NaN] the
    store is handed [NaN]; its answer is not modelled ([None]). *)
Definition list_contacts_request (rq : raw_query) (c : collection)
  : option (response * collection) :=
  match q_trim (r_city rq) with
  | None => Some (Failure500, c)
  | Some city =>
      match q_trim (r_tag rq) with
      | None => Some (Failure500, c)
      | Some tag =>
          match raw_page rq, raw_pageSize rq with
          | Num p, Num ps => Some (list_page p ps (filter_of city tag) c)
          | _, _ => None
          end
      end
  end.

(** [req.body || {}] *)
Definition body_or_empty (body : option value) : value :=
  match body with
  | Some b => if truthy body then b else VObj []
  | None => VObj []
  end.

(** The [$set] document of [/upsert-contact]:
    [{ ...(name ? { name } : {}), ...(city ? { city } : {}),
       ...(Array.isArray(tags) ? { tags } : {}), updatedAt: new Date() }] *)
Definition contact_set (name city tags : option value) (now : Z) : fields :=
  (match name with Some v => if truthy name then [("name", v)] else [] | None => [] end) ++
  (match city with Some v => if truthy city then [("city", v)] else [] | None => [] end) ++
  (match tags with Some v => if isArray tags then [("tags", v)] else [] | None => [] end) ++
  [("updatedAt", VDate now)].

(** The update document of [/upsert-contact]:
    [{ $set: { ... }, $setOnInsert: { createdAt: new Date() } }] *)
Definition contact_update (name city tags : option value) (t_set t_insert : Z) : update :=
  Update (contact_set name city tags t_set) [("createdAt", VDate t_insert)].

Definition bad_request : response :=
  Response 400 (VObj [("ok", VBool false); ("error", VStr "email is required")]).

(** The result object of [/upsert-contact]:
    [{ matched: r.matchedCount, modified: r.modifiedCount,
       upsertedId: r.upsertedId ?? null }] *)
Definition upsert_result (r : Driver.UpdateResult) : value :=
  VObj [("matched", VNat (Driver.matchedCount r));
        ("modified", VNat (Driver.modifiedCount r));
        ("upsertedId", nullish (option_map VOid (Driver.upsertedId r)) VNull)].

(** [POST /upsert-contact]; [t_set] and [t_insert] are the two
    [new Date()] of the update document.  Of the bodies, [express.json()]
    hands the handler objects and arrays only, or no body at all. *)
Definition upsert_contact (body : option value) (t_set t_insert : Z) : M response :=
  let b := body_or_empty body in
  let email := get_prop "email" b in
  let name := get_prop "name" b in
  let city := get_prop "city" b in
  let tags := get_prop "tags" b in
  match email with
  | Some e =>
      if negb (truthy email) then ret bad_request
      else
        result <- withCol (
          r <- updateOne [("email", e)]
                 (contact_update name city tags t_set t_insert) true ;;
          ret (upsert_result r)) ;;
        ret (Response 200 (ok_body "result" result))
  | None => ret bad_request
  end.

(** ** The system: requests against the persistent collection *)

Inductive request : Type :=
| RunDemo (now : Z)
| ClearData
| InsertSample (now : Z)
| ListContacts (q : query)
| UpsertContact (body : option value) (t_set t_insert : Z).

Definition handle (r : request) : M response :=
  match r with
  | RunDemo now => run_demo now
  | ClearData => clear_data
  | InsertSample now => insert_sample now
  | ListContacts q => list_contacts q
  | UpsertContact body t_set t_insert => upsert_contact body t_set t_insert
  end.

(** The collection after a sequence of requests. *)
Fixpoint run (rs : list request) (c : collection) : collection :=
  match rs with
  | [] => c
  | r :: rest => run rest (snd (handle r c))
  end.

(** ** Auxiliary definitions of the proofs *)

(** The value [$set] leaves in a field: the last one [s] gives it, or
    the one it had. *)
Definition set_value (s : fields) (kv : string * value) : string * value :=
  (fst kv, nullish (assoc (fst kv) (rev s)) (snd kv)).

(** The document [$set] makes of [d]. *)
Definition updated (s : fields) (d : document) : document :=
  Doc (doc_id d) (apply_set s (doc_fields d)).

Definition no_write : Driver.UpdateResult :=
  {| Driver.matchedCount := 0; Driver.modifiedCount := 0;
     Driver.upsertedCount := 0; Driver.upsertedId := None |}.

(** A collection holding the seeded contact only. *)
Definition seeded : collection :=
  Col [Doc 0%N [("email", VStr "aarti@shade.org.in"); ("name", VStr "Aarti");
                ("city", VStr "Chennai")]] 1%N.

(** The collection after each write of the script. *)
Definition after_seed (c : collection) : collection :=
  snd (updateOne aarti_filter seed_update true c).

Definition after_A (c : collection) : collection :=
  snd (updateOne aarti_filter stepA_update false (after_seed c)).

Definition after_B (c : collection) : collection :=
  snd (updateOne missing_filter stepB_update false (after_A c)).

Definition after_C (now : Z) (c : collection) : collection :=
  snd (updateOne missing_filter (stepC_update now) true (after_B c)).

(** The fields a filter tests are not among those an update sets. *)
Definition untouched (filter s : fields) : Prop :=
  forall k, In k (map fst filter) -> ~ In k (map fst s).

(** [keeps k c c']: every document of [c'] is either newer than [c]
    (its id was not yet given out) or a document of [c], possibly
    rewritten, whose field [k] is as it was in [c]. *)
Definition keeps (k : string) (c c' : collection) : Prop :=
  (next_oid c <= next_oid c')%N /\
  forall d', In d' (docs c') ->
    (next_oid c <= doc_id d')%N \/
    exists d, In d (docs c) /\ doc_id d = doc_id d' /\
              assoc k (doc_fields d) = assoc k (doc_fields d').

(** A store operation that never rewrites field [k]. *)
Definition preserving {A : Type} (k : string) (m : M A) : Prop :=
  forall c, keeps k c (snd (m c)).

(** Ids are distinct and were all given out by the generator. *)
Definition well_formed (c : collection) : Prop :=
  NoDup (map doc_id (docs c)) /\
  Forall (fun d => (doc_id d < next_oid c)%N) (docs c).

(** A store operation that keeps the collection well formed. *)
Definition wf_preserving {A : Type} (m : M A) : Prop :=
  forall c, well_formed c -> well_formed (snd (m c)).

(** [x] comes no later than [y] in an ascending sort on [email]. *)
Definition email_le (x y : fields) : Prop :=
  key_leb (email_sort_key x) (email_sort_key y) = true.

(** A store operation that keeps an invariant [I] of the collection. *)
Definition invariant_of {A : Type} (I : collection -> Prop) (m : M A) : Prop :=
  forall c, I c -> I (snd (m c)).

(** No two stored documents have the same [email] (a missing [email]
    counting as one value). *)
Definition unique_emails (c : collection) : Prop :=
  NoDup (map (fun d => assoc "email" (doc_fields d)) (docs c)).

(** An update as the source writes them for a contact keyed by [e]: it
    sets no [email], and the document it would insert has the email [e]. *)
Definition keyed_by_email (e : value) (u : update) : Prop :=
  ~ In "email" (map fst (u_set u)) /\
  forall id, assoc "email" (doc_fields (upsert_doc id [("email", e)] u)) = Some e.



(** A value that is neither an object nor an array: as a filter
    condition it is an equality whatever it holds. *)
Definition scalar (v : value) : bool :=
  match v with
  | VArr _ => false
  | VObj _ => false
  | _ => true
  end.

(** The value an object literal with the properties [s] has for [k]:
    the last one written. *)
Definition written (s : fields) (k : string) : option value :=
  assoc k (rev s).

(** The three sample contacts of [/insert-sample]: email, name, city,
    tag. *)
Definition samples : list (string * string * string * string) :=
  [("aarti@shade.org.in", "Aarti", "Chennai", "Volunteer");
   ("rahul@example.com", "Rahul", "Bengaluru", "Donor");
   ("latha@example.com", "Latha", "Mumbai", "Prospect")].

Definition sample_email (x : string * string * string * string) : string :=
  fst (fst (fst x)).

(** [d] is the sample contact [x] as created at time [now]: these five
    fields and no other. *)
Definition is_sample (now : Z) (x : string * string * string * string)
           (d : document) : Prop :=
  let '(email, name, city, tag) := x in
  assoc "email" (doc_fields d) = Some (VStr email) /\
  assoc "name" (doc_fields d) = Some (VStr name) /\
  assoc "city" (doc_fields d) = Some (VStr city) /\
  assoc "tags" (doc_fields d) = Some (VArr [VStr tag]) /\
  assoc "createdAt" (doc_fields d) = Some (VDate now) /\
  List.length (doc_fields d) = 5.

(** No stored document matches the sample's email. *)
Definition sample_missing (c : collection) (x : string * string * string * string) : bool :=
  negb (existsb (doc_matches [("email", VStr (sample_email x))]) (docs c)).

(** The fields [/upsert-contact] may set. *)
Definition contact_fields : list string := ["name"; "city"; "tags"; "updatedAt"].

(** The documents after [updateOne] has rewritten the first match, if
    there is one. *)
Definition rewrite_first (f s : fields) (ds : list document) : list document :=
  match update_first f s ds with
  | Some (ds', _) => ds'
  | None => ds
  end.

(** U+00A0, a white space outside ASCII. *)
Definition nbsp : string := String (ascii_of_nat 194) (String (ascii_of_nat 160) "").

(** * Properties *)

(** ** The model on the scenarios of the documentation *)

(** An upsert into the empty collection creates the contact. *)
Example upsert_into_empty :
  let rc := updateOne [("email", VStr "a@x.com")]
              (Update [("city", VStr "Mumbai")] [("tags", VArr [VStr "Prospect"])]) true
              empty_collection in
  fst rc = {| Driver.matchedCount := 0; Driver.modifiedCount := 0;
              Driver.upsertedCount := 1; Driver.upsertedId := Some 0%N |} /\
  exists d, docs (snd rc) = [d] /\ doc_id d = 0%N /\
            assoc "email" (doc_fields d) = Some (VStr "a@x.com") /\
            assoc "city" (doc_fields d) = Some (VStr "Mumbai") /\
            assoc "tags" (doc_fields d) = Some (VArr [VStr "Prospect"]) /\
            List.length (doc_fields d) = 3.
Proof. split; [reflexivity |]. eexists. repeat split. Qed.

(** The first run of the script, on an empty collection, reports what
    the README expects. *)
Example first_run_report :
  let r := fst (runUpdateUpsertDemo 5%Z empty_collection) in
  updateExisting r = Some {| matched := 1; modified := 1; upsertedId := None |} /\
  updateMissingNoUpsert r = Some {| matched := 0; modified := 0; upsertedId := None |} /\
  upsertMissing r =
    Some {| matched := 0; modified := 0; upsertedId := Some "000000000000000000000001" |} /\
  map (assoc "email") (finalDocs r) =
    [Some (VStr "aarti@shade.org.in"); Some (VStr "missing@example.com")].
Proof. vm_compute. auto. Qed.

(** The next run on the same collection reports what the recorded
    command-line output of [/run-demo] shows. *)
Example second_run_report :
  let c := snd (runUpdateUpsertDemo 5%Z empty_collection) in
  let r := fst (runUpdateUpsertDemo 9%Z c) in
  updateExisting r = Some {| matched := 1; modified := 0; upsertedId := None |} /\
  updateMissingNoUpsert r = Some {| matched := 1; modified := 0; upsertedId := None |} /\
  upsertMissing r = Some {| matched := 1; modified := 0; upsertedId := None |} /\
  List.length (finalDocs r) = 2.
Proof. vm_compute. auto. Qed.

(** [/insert-sample] on an empty collection, then the contacts by email. *)
Example insert_sample_then_sorted :
  let c := snd (insert_sample 5%Z empty_collection) in
  fst (insert_sample 5%Z empty_collection) =
    Response 200
      (ok_body "result"
         (VObj [("bulk", VObj [("matched", VNum 0); ("modified", VNum 0);
                               ("upserts", VNum 3)]);
                ("total", VNum 3)])) /\
  fst (countDocuments [] c) = 3 /\
  map (assoc "email") (fst (find_sorted [] c)) =
    [Some (VStr "aarti@shade.org.in"); Some (VStr "latha@example.com");
     Some (VStr "rahul@example.com")].
Proof. vm_compute. auto. Qed.

Example parseInt_examples :
  parseInt "10" = Num 10 /\ parseInt "  -3" = Num (-3) /\ parseInt "7up" = Num 7 /\
  parseInt "" = NaN /\ parseInt "abc" = NaN /\ parseInt "-" = NaN.
Proof. repeat split. Qed.

(** ** Equality of values *)

Lemma value_eqb_eq (a b : value) : value_eqb a b = true <-> a = b.
Proof.
  revert b. induction a as [| x | x | x | x | x | xs IH | xs IH] using value_ind;
    intros [| y | y | y | y | y | ys | ys]; simpl;
    try (split; [discriminate | intros E; inversion E]).
  - tauto.
  - rewrite Bool.eqb_true_iff. split; [now intros -> | now intros [= ->]].
  - rewrite Z.eqb_eq. split; [now intros -> | now intros [= ->]].
  - rewrite String.eqb_eq. split; [now intros -> | now intros [= ->]].
  - rewrite Z.eqb_eq. split; [now intros -> | now intros [= ->]].
  - rewrite N.eqb_eq. split; [now intros -> | now intros [= ->]].
  - revert ys. induction IH as [| x r Hx _ IHr]; intros [| y ys].
    + tauto.
    + split; [discriminate | intros E; inversion E].
    + split; [discriminate | intros E; inversion E].
    + rewrite andb_true_iff, Hx, IHr.
      split; [intros [-> E]; now inversion E | intros E; inversion E; auto].
  - revert ys. induction IH as [| [k x] r Hx _ IHr]; intros [| [k' y] ys].
    + tauto.
    + split; [discriminate | intros E; inversion E].
    + split; [discriminate | intros E; inversion E].
    + simpl in Hx. rewrite !andb_true_iff, String.eqb_eq, Hx, IHr.
      split; [intros [[-> ->] E]; now inversion E | intros E; inversion E; auto].
Qed.

Lemma value_eqb_refl (a : value) : value_eqb a a = true.
Proof. now apply value_eqb_eq. Qed.

Lemma fields_eqb_eq (l1 l2 : fields) : fields_eqb l1 l2 = true <-> l1 = l2.
Proof.
  revert l2. induction l1 as [| [k x] r IH]; intros [| [k' y] r']; simpl.
  - tauto.
  - split; [discriminate | intros E; inversion E].
  - split; [discriminate | intros E; inversion E].
  - rewrite !andb_true_iff, String.eqb_eq, value_eqb_eq, IH.
    split; [intros [[-> ->] ->]; reflexivity | intros E; inversion E; auto].
Qed.

Lemma fields_eqb_refl (l : fields) : fields_eqb l l = true.
Proof. now apply fields_eqb_eq. Qed.

(** ** [$set] on the fields of a document *)

Lemma has_field_assoc (k : string) (l : fields) :
  has_field k l = true <-> assoc k l <> None.
Proof.
  unfold has_field. induction l as [| [k' v] r IH]; simpl.
  - split; [discriminate | congruence].
  - destruct (String.eqb k k'); simpl; [split; [discriminate | reflexivity] | exact IH].
Qed.

Lemma assoc_app (k : string) (l1 l2 : fields) :
  assoc k (l1 ++ l2) = match assoc k l1 with Some v => Some v | None => assoc k l2 end.
Proof.
  induction l1 as [| [k' v] r IH]; simpl; [reflexivity |].
  destruct (String.eqb k k'); [reflexivity | exact IH].
Qed.

Lemma assoc_overwrite (k k0 : string) (v : value) (l : fields) :
  assoc k (map (fun kv => if String.eqb k0 (fst kv) then (fst kv, v) else kv) l) =
  if String.eqb k0 k then option_map (fun _ => v) (assoc k l) else assoc k l.
Proof.
  induction l as [| [k' w] r IH]; simpl.
  - now destruct (String.eqb k0 k).
  - destruct (String.eqb k0 k') eqn:E0; simpl.
    + apply String.eqb_eq in E0. subst k'.
      rewrite (String.eqb_sym k k0).
      destruct (String.eqb k0 k) eqn:E; simpl; [reflexivity |].
      rewrite IH. reflexivity.
    + destruct (String.eqb k k') eqn:E.
      * apply String.eqb_eq in E. subst k'. now rewrite E0.
      * exact IH.
Qed.

(** After [$set] of [k], the field [k] holds the value written... *)
Lemma assoc_set_field_same (k : string) (v : value) (l : fields) :
  assoc k (set_field k v l) = Some v.
Proof.
  unfold set_field. destruct (has_field k l) eqn:H.
  - rewrite assoc_overwrite, String.eqb_refl.
    apply has_field_assoc in H. now destruct (assoc k l).
  - rewrite assoc_app. destruct (assoc k l) eqn:A.
    + assert (has_field k l = true) by (apply has_field_assoc; congruence). congruence.
    + simpl. now rewrite String.eqb_refl.
Qed.

(** ... and every other field is as before. *)
Lemma assoc_set_field_other (k k0 : string) (v : value) (l : fields) :
  k <> k0 -> assoc k (set_field k0 v l) = assoc k l.
Proof.
  intros N. unfold set_field. destruct (has_field k0 l).
  - rewrite assoc_overwrite.
    destruct (String.eqb k0 k) eqn:E; [apply String.eqb_eq in E; congruence | reflexivity].
  - rewrite assoc_app. destruct (assoc k l); [reflexivity |].
    simpl. destruct (String.eqb k k0) eqn:E; [apply String.eqb_eq in E; congruence | reflexivity].
Qed.

Lemma apply_set_snoc (s : fields) (k : string) (v : value) (l : fields) :
  apply_set (s ++ [(k, v)]) l = set_field k v (apply_set s l).
Proof. unfold apply_set. now rewrite fold_left_app. Qed.

Lemma assoc_apply_set_other (k : string) (s l : fields) :
  ~ In k (map fst s) -> assoc k (apply_set s l) = assoc k l.
Proof.
  revert l. induction s as [| [k0 v] r IH]; intros l N; simpl in *; [reflexivity |].
  rewrite IH by tauto. apply assoc_set_field_other. intros ->. tauto.
Qed.

(** A write of fields the filter does not test leaves the match as it was. *)
Lemma doc_matches_apply_set (filter s : fields) (id : ObjectId) (l : fields) :
  (forall k, In k (map fst filter) -> ~ In k (map fst s)) ->
  doc_matches filter (Doc id (apply_set s l)) = doc_matches filter (Doc id l).
Proof.
  unfold doc_matches. simpl.
  induction filter as [| [k q] r IH]; intros D; simpl in *; [reflexivity |].
  rewrite assoc_apply_set_other by (apply D; now left).
  f_equal. apply IH. intros k' Hk'. apply D. now right.
Qed.

Lemma has_field_overwrite (k k0 : string) (v : value) (l : fields) :
  has_field k (map (fun kv => if String.eqb k0 (fst kv) then (fst kv, v) else kv) l) =
  has_field k l.
Proof.
  unfold has_field. induction l as [| [k' w] r IH]; simpl; [reflexivity |].
  rewrite IH. now destruct (String.eqb k0 k').
Qed.

Lemma has_field_set_field (k k0 : string) (v : value) (l : fields) :
  has_field k l = true -> has_field k (set_field k0 v l) = true.
Proof.
  intros H. unfold set_field. destruct (has_field k0 l).
  - now rewrite has_field_overwrite.
  - unfold has_field in *. rewrite existsb_app, H. reflexivity.
Qed.

Lemma has_field_apply_set (k : string) (s l : fields) :
  has_field k l = true -> has_field k (apply_set s l) = true.
Proof.
  revert l. induction s as [| [k0 v] r IH]; intros l H; simpl; [exact H |].
  apply IH. now apply has_field_set_field.
Qed.

Lemma has_field_apply_set_key (k : string) (s l : fields) :
  In k (map fst s) -> has_field k (apply_set s l) = true.
Proof.
  revert l. induction s as [| [k0 v] r IH]; intros l H; simpl in *; [tauto |].
  destruct H as [-> | H]; [| now apply IH].
  apply has_field_apply_set. apply has_field_assoc.
  now rewrite assoc_set_field_same.
Qed.


(** On a document that has every field of [s], [$set] only overwrites. *)
Lemma apply_set_present (s l : fields) :
  (forall k, In k (map fst s) -> has_field k l = true) ->
  apply_set s l = map (set_value s) l.
Proof.
  revert l. induction s as [| [k v] r IH]; intros l H.
  - simpl. rewrite <- (map_id l) at 1. apply map_ext. now intros [k w].
  - simpl. unfold set_field. rewrite (H k) by now left.
    rewrite IH.
    + rewrite map_map. apply map_ext. intros [k' w]. unfold set_value. simpl.
      rewrite assoc_app. simpl.
      destruct (String.eqb k k') eqn:E; simpl.
      * rewrite String.eqb_sym, E. now destruct (assoc k' (rev r)).
      * rewrite String.eqb_sym, E. now destruct (assoc k' (rev r)).
    + intros k' Hk'. rewrite has_field_overwrite. apply H. now right.
Qed.

(** Once written, every field of [s] holds the value [s] gives it. *)
Lemma apply_set_holds (s l : fields) :
  Forall (fun kv => set_value s kv = kv) (apply_set s l).
Proof.
  induction s as [| [k v] r IH] using rev_ind.
  - simpl. apply Forall_forall. now intros [k w].
  - rewrite apply_set_snoc. unfold set_value in *. rewrite rev_unit.
    unfold set_field. destruct (has_field k (apply_set r l)) eqn:E.
    + apply Forall_map. eapply Forall_impl; [| exact IH].
      intros [k' w] Hkw. simpl in *.
      destruct (String.eqb k k') eqn:Ek; simpl; rewrite String.eqb_sym, Ek.
      * reflexivity.
      * exact Hkw.
    + apply Forall_app. split.
      * apply Forall_forall. intros [k' w] Hin. simpl.
        destruct (String.eqb k' k) eqn:Ek.
        { apply String.eqb_eq in Ek. subst k'.
          assert (has_field k (apply_set r l) = true); [| congruence].
          unfold has_field. apply existsb_exists. exists (k, w).
          split; [exact Hin | apply String.eqb_refl]. }
        { rewrite Forall_forall in IH. exact (IH _ Hin). }
      * constructor; [| constructor]. simpl. now rewrite String.eqb_refl.
Qed.

(** [$set] is idempotent: writing the same fields again changes nothing. *)
Lemma apply_set_idempotent (s l : fields) :
  apply_set s (apply_set s l) = apply_set s l.
Proof.
  rewrite apply_set_present.
  - rewrite <- (map_id (apply_set s l)) at 2.
    apply map_ext_in. intros kv Hin.
    pose proof (apply_set_holds s l) as H. rewrite Forall_forall in H. now apply H.
  - intros k Hk. now apply has_field_apply_set_key.
Qed.

(** ** [updateOne] *)


Lemma find_none_existsb (filter : fields) (ds : list document) :
  find (doc_matches filter) ds = None <-> existsb (doc_matches filter) ds = false.
Proof.
  induction ds as [| d r IH]; simpl; [tauto |].
  destruct (doc_matches filter d); simpl; [split; discriminate | exact IH].
Qed.

Lemma update_first_none (filter s : fields) (ds : list document) :
  find (doc_matches filter) ds = None -> update_first filter s ds = None.
Proof.
  induction ds as [| d r IH]; simpl; [reflexivity |].
  destruct (doc_matches filter d); [discriminate |].
  intros H. now rewrite IH.
Qed.

(** [updateOne] rewrites the first matching document in place. *)
Lemma update_first_some (filter s : fields) (ds : list document) (d : document) :
  find (doc_matches filter) ds = Some d ->
  exists pre post,
    ds = pre ++ d :: post /\
    existsb (doc_matches filter) pre = false /\
    doc_matches filter d = true /\
    update_first filter s ds =
      Some (pre ++ updated s d :: post,
            negb (fields_eqb (apply_set s (doc_fields d)) (doc_fields d))).
Proof.
  induction ds as [| x r IH]; simpl; [discriminate |].
  destruct (doc_matches filter x) eqn:E.
  - intros [= ->]. exists [], r. simpl. auto.
  - intros H. destruct (IH H) as (pre & post & -> & Hpre & Hd & Hu).
    exists (x :: pre), post. simpl. rewrite E, Hu. auto.
Qed.

Lemma find_app_first (filter : fields) (pre post : list document) (d : document) :
  existsb (doc_matches filter) pre = false ->
  doc_matches filter d = true ->
  find (doc_matches filter) (pre ++ d :: post) = Some d.
Proof.
  induction pre as [| x r IH]; simpl; intros Hpre Hd.
  - now rewrite Hd.
  - apply orb_false_iff in Hpre. destruct Hpre as [-> Hr]. now apply IH.
Qed.


Lemma updateOne_no_match (filter : fields) (u : update) (c : collection) :
  find (doc_matches filter) (docs c) = None ->
  updateOne filter u false c = (no_write, c).
Proof.
  intros H. unfold updateOne. now rewrite (update_first_none _ _ _ H).
Qed.

Lemma updateOne_upsert_no_match (filter : fields) (u : update) (c : collection) :
  find (doc_matches filter) (docs c) = None ->
  updateOne filter u true c =
    ({| Driver.matchedCount := 0; Driver.modifiedCount := 0;
        Driver.upsertedCount := 1; Driver.upsertedId := Some (next_oid c) |},
     Col (docs c ++ [upsert_doc (next_oid c) filter u]) (N.succ (next_oid c))).
Proof.
  intros H. unfold updateOne. now rewrite (update_first_none _ _ _ H).
Qed.

Lemma updateOne_match (filter : fields) (u : update) (upsert : bool)
      (c : collection) (d : document) :
  find (doc_matches filter) (docs c) = Some d ->
  exists pre post,
    docs c = pre ++ d :: post /\
    existsb (doc_matches filter) pre = false /\
    updateOne filter u upsert c =
      ({| Driver.matchedCount := 1;
          Driver.modifiedCount :=
            if fields_eqb (apply_set (u_set u) (doc_fields d)) (doc_fields d)
            then 0 else 1;
          Driver.upsertedCount := 0;
          Driver.upsertedId := None |},
       Col (pre ++ updated (u_set u) d :: post) (next_oid c)).
Proof.
  intros H. destruct (update_first_some filter (u_set u) _ _ H)
    as (pre & post & Hds & Hpre & Hd & Hu).
  exists pre, post. split; [exact Hds |]. split; [exact Hpre |].
  unfold updateOne. rewrite Hu.
  now destruct (fields_eqb (apply_set (u_set u) (doc_fields d)) (doc_fields d)).
Qed.

(** ** C3: a conditional update that matches nothing *)

(** C3.  For every filter that matches no document of the collection,
    [updateOne] without [upsert] returns normally, its normalized result
    is matched 0, modified 0 with a null [upsertedId], and the collection
    -- so also the count of its documents -- is what it was. *)
Theorem conditional_update_no_match (filter : fields) (u : update) (c : collection) :
  existsb (doc_matches filter) (docs c) = false ->
  exists r,
    updateOne filter u false c = (r, c) /\
    normalize r = {| matched := 0; modified := 0; upsertedId := None |} /\
    fst (countDocuments [] (snd (updateOne filter u false c))) =
      fst (countDocuments [] c).
Proof.
  intros H. apply find_none_existsb in H.
  exists no_write. rewrite (updateOne_no_match _ u _ H). simpl. auto.
Qed.

Lemma conditional_update_no_match_witness :
  existsb (doc_matches missing_filter) (docs seeded) = false /\
  exists r,
    updateOne missing_filter stepB_update false seeded = (r, seeded) /\
    normalize r = {| matched := 0; modified := 0; upsertedId := None |} /\
    fst (countDocuments [] (snd (updateOne missing_filter stepB_update false seeded))) =
      fst (countDocuments [] seeded).
Proof.
  split; [reflexivity |].
  apply (conditional_update_no_match missing_filter stepB_update seeded).
  reflexivity.
Defined.

(** ** C2: an upsert inserts exactly when nothing matches *)

(** The empty filter matches every document. *)
Lemma countDocuments_all (c : collection) :
  fst (countDocuments [] c) = List.length (docs c).
Proof.
  unfold countDocuments. simpl.
  induction (docs c) as [| d r IH]; simpl; [reflexivity | now rewrite IH].
Qed.

(** C2.  For every [updateOne] with [upsert: true]: the normalized
    result carries an [upsertedId] (and the result object of
    [/upsert-contact] a non-null one) if and only if the call added a
    document.  When the filter matches no document, the collection grows
    by exactly the one inserted document and [upsertedId] is its id;
    when the filter matches a document, [upsertedId] is null and the
    number of documents is what it was. *)
Theorem upsert_inserts_iff_upsertedId (filter : fields) (u : update) (c : collection) :
  (upsertedId (normalize (fst (updateOne filter u true c))) <> None <->
   List.length (docs (snd (updateOne filter u true c))) = S (List.length (docs c))) /\
  (get_prop "upsertedId" (upsert_result (fst (updateOne filter u true c))) <> Some VNull <->
   List.length (docs (snd (updateOne filter u true c))) = S (List.length (docs c))) /\
  (if existsb (doc_matches filter) (docs c)
   then upsertedId (normalize (fst (updateOne filter u true c))) = None /\
        List.length (docs (snd (updateOne filter u true c))) = List.length (docs c)
   else upsertedId (normalize (fst (updateOne filter u true c))) =
          Some (ObjectId_toString (next_oid c)) /\
        docs (snd (updateOne filter u true c)) =
          docs c ++ [upsert_doc (next_oid c) filter u] /\
        fst (countDocuments [] (snd (updateOne filter u true c))) =
          S (fst (countDocuments [] c))).
Proof.
  destruct (find (doc_matches filter) (docs c)) as [d |] eqn:F.
  - assert (E : existsb (doc_matches filter) (docs c) = true).
    { destruct (existsb (doc_matches filter) (docs c)) eqn:E; [reflexivity |].
      apply find_none_existsb in E. congruence. }
    rewrite E.
    destruct (updateOne_match filter u true c d F) as (pre & post & Hds & _ & ->).
    simpl. rewrite Hds, !length_app. simpl.
    repeat split; try congruence; try lia.
  - rewrite (updateOne_upsert_no_match filter u c F).
    apply find_none_existsb in F. rewrite F.
    rewrite !countDocuments_all. simpl.
    rewrite !length_app. simpl.
    repeat split; try congruence; try lia.
Qed.

(** ** C4: the same conditional update, twice *)

Lemma update_first_app (filter s : fields) (pre post : list document) (d : document) :
  existsb (doc_matches filter) pre = false ->
  doc_matches filter d = true ->
  update_first filter s (pre ++ d :: post) =
    Some (pre ++ updated s d :: post,
          negb (fields_eqb (apply_set s (doc_fields d)) (doc_fields d))).
Proof.
  induction pre as [| x r IH]; simpl; intros Hpre Hd.
  - now rewrite Hd.
  - apply orb_false_iff in Hpre. destruct Hpre as [-> Hr]. now rewrite IH.
Qed.

Lemma updated_idempotent (s : fields) (d : document) :
  updated s (updated s d) = updated s d.
Proof. unfold updated. simpl. now rewrite apply_set_idempotent. Qed.

Lemma updateOne_twice
        (filter : fields) (u : update) (c c1 c2 : collection) (d : document)
        (r1 r2 : Driver.UpdateResult) :
  find (doc_matches filter) (docs c) = Some d ->
  doc_matches filter (updated (u_set u) d) = true ->
  updateOne filter u false c = (r1, c1) ->
  updateOne filter u false c1 = (r2, c2) ->
  matched (normalize r1) = 1 /\
  (apply_set (u_set u) (doc_fields d) <> doc_fields d -> modified (normalize r1) = 1) /\
  (apply_set (u_set u) (doc_fields d) = doc_fields d -> modified (normalize r1) = 0) /\
  normalize r2 = {| matched := 1; modified := 0; upsertedId := None |} /\
  find (doc_matches filter) (docs c2) = Some (updated (u_set u) d) /\
  c2 = c1.
Proof.
  intros F Still U1 U2.
  destruct (update_first_some filter (u_set u) _ _ F) as (pre & post & Hds & Hpre & Hd & Hu).
  unfold updateOne in U1. rewrite Hu in U1. injection U1 as <- <-.
  unfold updateOne in U2. simpl in U2.
  rewrite (update_first_app filter (u_set u) pre post _ Hpre Still) in U2.
  rewrite updated_idempotent in U2.
  change (doc_fields (updated (u_set u) d)) with (apply_set (u_set u) (doc_fields d)) in U2.
  rewrite apply_set_idempotent, fields_eqb_refl in U2. simpl in U2.
  injection U2 as <- <-. simpl.
  split; [reflexivity |].
  split.
  { intros Hne. destruct (fields_eqb _ _) eqn:E; [| reflexivity].
    apply fields_eqb_eq in E. contradiction. }
  split.
  { intros He. rewrite He, fields_eqb_refl. reflexivity. }
  split; [reflexivity |].
  split; [| reflexivity].
  now apply find_app_first.
Qed.

(** When the update sets none of the fields the filter tests -- as in
    every conditional update of the source, which tests [email] and sets
    [city] -- the document matches again by itself. *)
Lemma updateOne_twice_untouched
        (filter : fields) (u : update) (c c1 c2 : collection) (d : document)
        (r1 r2 : Driver.UpdateResult) :
  untouched filter (u_set u) ->
  find (doc_matches filter) (docs c) = Some d ->
  updateOne filter u false c = (r1, c1) ->
  updateOne filter u false c1 = (r2, c2) ->
  matched (normalize r1) = 1 /\
  normalize r2 = {| matched := 1; modified := 0; upsertedId := None |} /\
  c2 = c1.
Proof.
  intros D F U1 U2.
  assert (Still : doc_matches filter (updated (u_set u) d) = true).
  { destruct (update_first_some filter [] _ _ F) as (? & ? & _ & _ & Hd & _).
    destruct d as [id l]. unfold updated. simpl.
    now rewrite (doc_matches_apply_set filter (u_set u) id l D). }
  destruct (updateOne_twice filter u c c1 c2 d r1 r2 F Still U1 U2)
    as (M1 & _ & _ & R2 & _ & E).
  auto.
Qed.

(** C4, as stated, fails for a [fieldsToSet] that rewrites a field the
    filter tests: the seeded contact matches [{ email }], the update
    sets another email (matched 1, modified 1), and the same call again
    matches nothing. *)
Lemma conditional_update_twice_unmatched :
  let u := Update [("email", VStr "aarti@example.org")] [] in
  let c1 := snd (updateOne aarti_filter u false seeded) in
  existsb (doc_matches aarti_filter) (docs seeded) = true /\
  normalize (fst (updateOne aarti_filter u false seeded)) =
    {| matched := 1; modified := 1; upsertedId := None |} /\
  normalize (fst (updateOne aarti_filter u false c1)) =
    {| matched := 0; modified := 0; upsertedId := None |}.
Proof. vm_compute. auto. Qed.

Lemma written_apply_set (k : string) (s l : fields) :
  assoc k (apply_set s l) =
  match written s k with
  | Some v => Some v
  | None => assoc k l
  end.
Proof.
  unfold written.
  induction s as [| [k0 v0] r IH] using rev_ind; [reflexivity |].
  rewrite apply_set_snoc, rev_unit. simpl.
  destruct (String.eqb k k0) eqn:E.
  - apply String.eqb_eq in E. subst k0. apply assoc_set_field_same.
  - rewrite assoc_set_field_other; [exact IH |].
    intros ->. now rewrite String.eqb_refl in E.
Qed.

Lemma written_key (k : string) (s : fields) :
  In k (map fst s) -> exists v, written s k = Some v.
Proof.
  unfold written. intros H.
  assert (H' : In k (map fst (rev s))) by (rewrite map_rev; now apply in_rev in H).
  destruct (assoc k (rev s)) as [v |] eqn:A; [now exists v |].
  exfalso. clear H. induction (rev s) as [| [k' x] r IH]; simpl in *; [tauto |].
  destruct (String.eqb k k') eqn:E; [discriminate |].
  destruct H' as [-> | H']; [now rewrite String.eqb_refl in E | now apply IH].
Qed.

Lemma assoc_NoDup_In (k : string) (x : value) (l : fields) :
  NoDup (map fst l) -> In (k, x) l -> assoc k l = Some x.
Proof.
  induction l as [| [k' y] r IH]; simpl; intros ND H; [tauto |].
  inversion ND as [| ? ? Hk Hr]; subst.
  destruct H as [[= -> ->] | H].
  - now rewrite String.eqb_refl.
  - destruct (String.eqb k k') eqn:E.
    + apply String.eqb_eq in E. subst k'. exfalso. apply Hk.
      apply in_map_iff. now exists (k, x).
    + now apply IH.
Qed.

(** Setting fields that all hold their values already changes nothing,
    in a document that has each field once. *)
Lemma apply_set_unchanged (s l : fields) :
  NoDup (map fst l) ->
  (forall k v, written s k = Some v -> assoc k l = Some v) ->
  apply_set s l = l.
Proof.
  intros ND Same. rewrite apply_set_present.
  - rewrite <- (map_id l) at 2. apply map_ext_in. intros [k x] Hin.
    unfold set_value. simpl. fold (written s k).
    destruct (written s k) as [v |] eqn:W; [| reflexivity]. simpl.
    specialize (Same k v W).
    rewrite (assoc_NoDup_In k x l ND Hin) in Same. now injection Same as ->.
  - intros k Hk. destruct (written_key k s Hk) as (v & W).
    apply has_field_assoc. rewrite (Same k v W). discriminate.
Qed.

(** C4, amended.  Let [d] be the document a conditional update matches,
    still matching once its fields are set (as it is whenever the update
    sets none of the fields the filter tests).  The first call reports
    matched 1, and modified 1 when some field of the update is not
    stored with the value the update gives it (modified 0 when [d] has
    each field once and all hold their values already).  The second call
    with the same fields reports matched 1, modified 0, no [upsertedId],
    and leaves the collection as the first call left it: the matched
    document is [d] with each field of the update at its value and every
    other field as it was. *)
Theorem conditional_update_twice
        (filter : fields) (u : update) (c c1 c2 : collection) (d : document)
        (r1 r2 : Driver.UpdateResult) :
  find (doc_matches filter) (docs c) = Some d ->
  doc_matches filter (updated (u_set u) d) = true ->
  updateOne filter u false c = (r1, c1) ->
  updateOne filter u false c1 = (r2, c2) ->
  matched (normalize r1) = 1 /\
  ((exists k v, written (u_set u) k = Some v /\ assoc k (doc_fields d) <> Some v) ->
   modified (normalize r1) = 1) /\
  (NoDup (map fst (doc_fields d)) ->
   (forall k v, written (u_set u) k = Some v -> assoc k (doc_fields d) = Some v) ->
   modified (normalize r1) = 0) /\
  normalize r2 = {| matched := 1; modified := 0; upsertedId := None |} /\
  c2 = c1 /\
  exists d2,
    find (doc_matches filter) (docs c2) = Some d2 /\
    doc_id d2 = doc_id d /\
    (forall k v, written (u_set u) k = Some v -> assoc k (doc_fields d2) = Some v) /\
    (forall k, written (u_set u) k = None ->
               assoc k (doc_fields d2) = assoc k (doc_fields d)).
Proof.
  intros F Still U1 U2.
  destruct (updateOne_twice filter u c c1 c2 d r1 r2 F Still U1 U2)
    as (M1 & Changed & Unchanged & R2 & F2 & E).
  split; [exact M1 |].
  split.
  { intros (k & v & W & Hne). apply Changed. intros Eq. apply Hne.
    rewrite <- Eq, written_apply_set, W. reflexivity. }
  split.
  { intros ND Same. apply Unchanged. now apply apply_set_unchanged. }
  split; [exact R2 |]. split; [exact E |].
  exists (updated (u_set u) d). split; [exact F2 |]. split; [reflexivity |].
  split.
  - intros k v W. simpl. now rewrite written_apply_set, W.
  - intros k W. simpl. now rewrite written_apply_set, W.
Qed.

Lemma conditional_update_twice_witness :
  let c1 := snd (updateOne aarti_filter stepA_update false seeded) in
  let r1 := fst (updateOne aarti_filter stepA_update false seeded) in
  let r2 := fst (updateOne aarti_filter stepA_update false c1) in
  let c2 := snd (updateOne aarti_filter stepA_update false c1) in
  matched (normalize r1) = 1 /\
  modified (normalize r1) = 1 /\
  normalize r2 = {| matched := 1; modified := 0; upsertedId := None |} /\
  c2 = c1 /\
  exists d2,
    find (doc_matches aarti_filter) (docs c2) = Some d2 /\
    assoc "city" (doc_fields d2) = Some (VStr "Chennai (Adyar)") /\
    assoc "name" (doc_fields d2) = Some (VStr "Aarti").
Proof.
  intros c1 r1 r2 c2.
  destruct (conditional_update_twice aarti_filter stepA_update seeded c1 c2
              (Doc 0%N [("email", VStr "aarti@shade.org.in"); ("name", VStr "Aarti");
                        ("city", VStr "Chennai")])
              r1 r2 eq_refl eq_refl eq_refl eq_refl)
    as (M1 & Changed & _ & R2 & E & d2 & F2 & _ & Set2 & Kept2).
  split; [exact M1 |].
  split.
  { apply Changed. exists "city", (VStr "Chennai (Adyar)").
    split; [reflexivity | discriminate]. }
  split; [exact R2 |]. split; [exact E |].
  exists d2. split; [exact F2 |]. split.
  - apply Set2. reflexivity.
  - rewrite Kept2; reflexivity.
Defined.

(** ** The script, write by write *)

Lemma bind_eq {A B : Type} (m : M A) (k : A -> M B) (c : collection) :
  bind m k c = k (fst (m c)) (snd (m c)).
Proof. unfold bind. now destruct (m c). Qed.

Lemma runUpdateUpsertDemo_eq (now : Z) (c : collection) :
  runUpdateUpsertDemo now c =
    ({| updateExisting :=
          Some (normalize (fst (updateOne aarti_filter stepA_update false (after_seed c))));
        updateMissingNoUpsert :=
          Some (normalize (fst (updateOne missing_filter stepB_update false (after_A c))));
        upsertMissing :=
          Some (normalize (fst (updateOne missing_filter (stepC_update now) true (after_B c))));
        finalDocs := fst (find_sorted [] (after_C now c)) |},
     after_C now c).
Proof.
  unfold runUpdateUpsertDemo. rewrite !bind_eq. reflexivity.
Qed.

(** A write that leaves the tested fields alone leaves every document's
    match as it was. *)
Lemma update_first_existsb (f g s : fields) (ds ds' : list document) (changed : bool) :
  untouched f s ->
  update_first g s ds = Some (ds', changed) ->
  existsb (doc_matches f) ds' = existsb (doc_matches f) ds.
Proof.
  intros D. revert ds' changed.
  induction ds as [| d r IH]; simpl; intros ds' changed H; [discriminate |].
  destruct (doc_matches g d).
  - injection H as <- _. simpl. destruct d as [id l]. simpl.
    now rewrite (doc_matches_apply_set f s id l D).
  - destruct (update_first g s r) as [[r' ch] |]; [| discriminate].
    injection H as <- _. simpl. now rewrite (IH r' ch eq_refl).
Qed.

Lemma updateOne_existsb (f g : fields) (u : update) (upsert : bool) (c : collection) :
  untouched f (u_set u) ->
  existsb (doc_matches f) (docs (snd (updateOne g u upsert c))) =
    existsb (doc_matches f) (docs c) ||
    (upsert && negb (existsb (doc_matches g) (docs c)) &&
     doc_matches f (upsert_doc (next_oid c) g u)).
Proof.
  intros D. unfold updateOne.
  destruct (update_first g (u_set u) (docs c)) as [[ds ch] |] eqn:E.
  - simpl. rewrite (update_first_existsb f g (u_set u) (docs c) ds ch D E).
    assert (X : existsb (doc_matches g) (docs c) = true).
    { destruct (existsb (doc_matches g) (docs c)) eqn:X; [reflexivity |].
      apply find_none_existsb in X.
      rewrite (update_first_none g (u_set u) _ X) in E. discriminate. }
    rewrite X, andb_false_r. simpl. now rewrite orb_false_r.
  - assert (X : existsb (doc_matches g) (docs c) = false).
    { destruct (find (doc_matches g) (docs c)) as [d |] eqn:F.
      - destruct (update_first_some g (u_set u) _ _ F) as (? & ? & _ & _ & _ & Hu).
        congruence.
      - now apply find_none_existsb. }
    rewrite X. destruct upsert; simpl.
    + rewrite existsb_app. simpl. now rewrite orb_false_r.
    + now rewrite orb_false_r.
Qed.

Lemma untouched_email_city (e : value) (v : value) :
  untouched [("email", e)] [("city", v)].
Proof. intros k [<- | []] [E | []]. discriminate. Qed.

Lemma untouched_nothing (f : fields) : untouched f [].
Proof. intros k _ []. Qed.

(** The seed and step A neither create nor remove a match of step B's filter. *)
Lemma after_A_missing (c : collection) :
  existsb (doc_matches missing_filter) (docs (after_A c)) =
  existsb (doc_matches missing_filter) (docs c).
Proof.
  unfold after_A, after_seed.
  rewrite updateOne_existsb by apply untouched_email_city.
  rewrite updateOne_existsb by apply untouched_nothing.
  simpl. rewrite !andb_false_r. now rewrite !orb_false_r.
Qed.

(** ** C1: step B of the script *)

(** C1, as stated, fails: on the collection a first run leaves behind,
    step B of the next run matches the contact step C created. *)
Lemma stepB_not_always_unmatched :
  ~ (forall (now : Z) (c : collection),
       updateMissingNoUpsert (fst (runUpdateUpsertDemo now c)) =
         Some {| matched := 0; modified := 0; upsertedId := None |}).
Proof.
  intros H.
  specialize (H 9%Z (snd (runUpdateUpsertDemo 5%Z empty_collection))).
  vm_compute in H. discriminate.
Qed.

(** C1, amended.  Step B never reports an [upsertedId].  It reports
    matched 0, modified 0 when no stored contact matches
    [{ email: "missing@example.com" }] as the script starts, and matched
    1 when one does; and every run leaves such a contact behind, so a
    run on the collection an earlier run left is of the second kind. *)
Theorem stepB_result (now : Z) (c : collection) :
  exists r,
    updateMissingNoUpsert (fst (runUpdateUpsertDemo now c)) = Some r /\
    upsertedId r = None /\
    (if existsb (doc_matches missing_filter) (docs c)
     then matched r = 1
     else matched r = 0 /\ modified r = 0) /\
    existsb (doc_matches missing_filter) (docs (snd (runUpdateUpsertDemo now c))) = true.
Proof.
  rewrite runUpdateUpsertDemo_eq. simpl.
  eexists. split; [reflexivity |].
  pose proof (after_A_missing c) as HA.
  assert (HB : existsb (doc_matches missing_filter) (docs (after_B c)) =
               existsb (doc_matches missing_filter) (docs c)).
  { unfold after_B. rewrite updateOne_existsb by apply untouched_email_city.
    simpl. now rewrite orb_false_r. }
  assert (HC : existsb (doc_matches missing_filter) (docs (after_C now c)) = true).
  { unfold after_C. rewrite updateOne_existsb by apply untouched_email_city.
    destruct (existsb (doc_matches missing_filter) (docs (after_B c))); reflexivity. }
  destruct (find (doc_matches missing_filter) (docs (after_A c))) as [d |] eqn:F.
  - destruct (updateOne_match missing_filter stepB_update false _ d F)
      as (pre & post & _ & _ & ->).
    simpl. rewrite <- HA.
    destruct (existsb (doc_matches missing_filter) (docs (after_A c))) eqn:X.
    + auto.
    + apply find_none_existsb in X. congruence.
  - rewrite (updateOne_no_match missing_filter stepB_update _ F). simpl.
    apply find_none_existsb in F. rewrite <- HA, F. auto.
Qed.

(** ** Fields no write touches *)

Lemma keeps_refl (k : string) (c : collection) : keeps k c c.
Proof.
  split; [lia |]. intros d' H. right. exists d'. auto.
Qed.

Lemma keeps_trans (k : string) (c1 c2 c3 : collection) :
  keeps k c1 c2 -> keeps k c2 c3 -> keeps k c1 c3.
Proof.
  intros [N12 H12] [N23 H23]. split; [lia |].
  intros d3 H3. destruct (H23 d3 H3) as [New | (d2 & H2 & Id2 & K2)].
  - left. lia.
  - destruct (H12 d2 H2) as [New | (d1 & H1 & Id1 & K1)].
    + left. rewrite <- Id2. exact New.
    + right. exists d1. repeat split; [exact H1 | congruence | congruence].
Qed.

Lemma preserving_ret {A : Type} (k : string) (a : A) : preserving k (ret a).
Proof. intros c. apply keeps_refl. Qed.

Lemma preserving_bind {A B : Type} (k : string) (m : M A) (f : A -> M B) :
  preserving k m -> (forall a, preserving k (f a)) -> preserving k (bind m f).
Proof.
  intros Hm Hf c. rewrite bind_eq.
  eapply keeps_trans; [apply Hm | apply Hf].
Qed.

Lemma update_first_keeps (k : string) (f s : fields) (ds ds' : list document)
      (changed : bool) :
  ~ In k (map fst s) ->
  update_first f s ds = Some (ds', changed) ->
  forall d', In d' ds' ->
    exists d, In d ds /\ doc_id d = doc_id d' /\
              assoc k (doc_fields d) = assoc k (doc_fields d').
Proof.
  intros N. revert ds' changed.
  induction ds as [| x r IH]; simpl; intros ds' changed H d' Hin; [discriminate |].
  destruct (doc_matches f x).
  - injection H as <- _. destruct Hin as [<- | Hin].
    + exists x. simpl. rewrite assoc_apply_set_other by exact N. auto.
    + exists d'. auto.
  - destruct (update_first f s r) as [[r' ch] |]; [| discriminate].
    injection H as <- _. destruct Hin as [<- | Hin].
    + exists x. auto.
    + destruct (IH r' ch eq_refl d' Hin) as (d & Hd & Id & K).
      exists d. auto.
Qed.

(** [updateOne] rewrites only the fields of [$set]; [$setOnInsert] goes
    into new documents only. *)
Lemma preserving_updateOne (k : string) (f : fields) (u : update) (upsert : bool) :
  ~ In k (map fst (u_set u)) -> preserving k (updateOne f u upsert).
Proof.
  intros N c. unfold updateOne.
  destruct (update_first f (u_set u) (docs c)) as [[ds ch] |] eqn:E.
  - split; simpl; [lia |]. intros d' Hin. right.
    exact (update_first_keeps k f (u_set u) (docs c) ds ch N E d' Hin).
  - destruct upsert.
    + split; simpl; [lia |]. intros d' Hin.
      apply in_app_or in Hin. destruct Hin as [Hin | [<- | []]].
      * right. exists d'. auto.
      * left. simpl. lia.
    + apply keeps_refl.
Qed.

Lemma preserving_bulkWrite (k : string) (ops : list (fields * update)) :
  Forall (fun op => ~ In k (map fst (u_set (snd op)))) ops ->
  preserving k (bulkWrite ops).
Proof.
  induction 1 as [| [f u] rest Hu _ IH]; simpl.
  - apply preserving_ret.
  - apply preserving_bind; [now apply preserving_updateOne |].
    intros r. apply preserving_bind; [exact IH |].
    intros b. apply preserving_ret.
Qed.

Lemma preserving_read {A : Type} (k : string) (m : M A) :
  (forall c, snd (m c) = c) -> preserving k m.
Proof. intros H c. rewrite H. apply keeps_refl. Qed.

Lemma preserving_deleteMany (k : string) : preserving k deleteMany_all.
Proof.
  intros c. split; simpl; [lia |]. intros d' [].
Qed.

Lemma preserving_withCol {A : Type} (k : string) (fn : M A) :
  preserving k fn -> preserving k (withCol fn).
Proof.
  intros H. unfold withCol. apply preserving_bind; [apply preserving_ret | now intros _].
Qed.

Lemma contact_set_keys (name city tags : option value) (now : Z) (k : string) :
  In k (map fst (contact_set name city tags now)) ->
  k = "name" \/ k = "city" \/ k = "tags" \/ k = "updatedAt".
Proof.
  unfold contact_set. rewrite !map_app, !in_app_iff.
  intros [H | [H | [H | H]]].
  - destruct name as [v |]; [destruct (truthy (Some v)) |]; simpl in H; intuition.
  - destruct city as [v |]; [destruct (truthy (Some v)) |]; simpl in H; intuition.
  - destruct tags as [v |]; [destruct (isArray (Some v)) |]; simpl in H; intuition.
  - simpl in H. intuition.
Qed.

(** No handler ever rewrites [createdAt]. *)
Lemma handle_preserves_createdAt (r : request) : preserving "createdAt" (handle r).
Proof.
  destruct r as [now | | now | q | body t_set t_insert]; simpl.
  - unfold run_demo, runUpdateUpsertDemo.
    repeat (first [ apply preserving_ret
                  | apply preserving_bind; [| intros ?]
                  | apply preserving_updateOne; simpl; intuition discriminate
                  | apply preserving_read; reflexivity ]).
  - unfold clear_data.
    apply preserving_bind; [| intros ?; apply preserving_ret].
    apply preserving_withCol.
    apply preserving_bind; [apply preserving_deleteMany | intros ?; apply preserving_ret].
  - unfold insert_sample.
    apply preserving_bind; [| intros ?; apply preserving_ret].
    apply preserving_withCol.
    apply preserving_bind.
    + apply preserving_bulkWrite. repeat constructor; simpl; tauto.
    + intros ?. apply preserving_bind; [apply preserving_read; reflexivity |].
      intros ?. apply preserving_ret.
  - apply preserving_read. intros c. unfold list_contacts.
    destruct (page q); [reflexivity |].
    destruct (pageSize q); reflexivity.
  - unfold upsert_contact.
    destruct (get_prop "email" (body_or_empty body)) as [e |]; [| apply preserving_ret].
    destruct (negb (truthy (Some e))); [apply preserving_ret |].
    apply preserving_bind; [| intros ?; apply preserving_ret].
    apply preserving_withCol.
    apply preserving_bind; [| intros ?; apply preserving_ret].
    apply preserving_updateOne. simpl. intros H.
    apply contact_set_keys in H. intuition discriminate.
Qed.

Lemma run_keeps_createdAt (rs : list request) (c : collection) :
  keeps "createdAt" c (run rs c).
Proof.
  revert c. induction rs as [| r rest IH]; intros c; simpl.
  - apply keeps_refl.
  - eapply keeps_trans; [apply handle_preserves_createdAt | apply IH].
Qed.

Lemma same_id_same_doc (c : collection) (d1 d2 : document) :
  NoDup (map doc_id (docs c)) ->
  In d1 (docs c) -> In d2 (docs c) -> doc_id d1 = doc_id d2 -> d1 = d2.
Proof.
  induction (docs c) as [| x r IH]; simpl; intros ND H1 H2 E; [tauto |].
  inversion ND as [| ? ? Hx Hr]; subst.
  destruct H1 as [-> | H1], H2 as [-> | H2].
  - reflexivity.
  - exfalso. apply Hx. rewrite E. now apply in_map.
  - exfalso. apply Hx. rewrite <- E. now apply in_map.
  - now apply IH.
Qed.

(** ** Well-formed collections *)

Lemma well_formed_empty : well_formed empty_collection.
Proof. split; constructor. Qed.

Lemma update_first_ids (f s : fields) (ds ds' : list document) (changed : bool) :
  update_first f s ds = Some (ds', changed) -> map doc_id ds' = map doc_id ds.
Proof.
  revert ds' changed. induction ds as [| x r IH]; simpl; intros ds' changed H;
    [discriminate |].
  destruct (doc_matches f x).
  - injection H as <- _. reflexivity.
  - destruct (update_first f s r) as [[r' ch] |]; [| discriminate].
    injection H as <- _. simpl. now rewrite (IH r' ch eq_refl).
Qed.

Lemma wf_updateOne (f : fields) (u : update) (upsert : bool) :
  wf_preserving (updateOne f u upsert).
Proof.
  intros c [ND Fresh]. unfold updateOne.
  destruct (update_first f (u_set u) (docs c)) as [[ds ch] |] eqn:E.
  - pose proof (update_first_ids f (u_set u) (docs c) ds ch E) as Ids.
    split; simpl.
    + now rewrite Ids.
    + rewrite Forall_forall in *. intros d' Hin.
      apply (in_map doc_id) in Hin. rewrite Ids in Hin.
      apply in_map_iff in Hin. destruct Hin as (d & <- & Hd).
      now apply Fresh.
  - destruct upsert; [| now split].
    split; simpl.
    + rewrite map_app. simpl. apply NoDup_app; [exact ND | repeat constructor; tauto |].
      intros i Hi [<- | []].
      apply in_map_iff in Hi. destruct Hi as (d & Hid & Hd).
      rewrite Forall_forall in Fresh. specialize (Fresh d Hd). lia.
    + apply Forall_app. split.
      * eapply Forall_impl; [| exact Fresh]. simpl. intros d Hd. lia.
      * repeat constructor. simpl. lia.
Qed.

Lemma wf_ret {A : Type} (a : A) : wf_preserving (ret a).
Proof. intros c H. exact H. Qed.

Lemma wf_bind {A B : Type} (m : M A) (f : A -> M B) :
  wf_preserving m -> (forall a, wf_preserving (f a)) -> wf_preserving (bind m f).
Proof.
  intros Hm Hf c H. rewrite bind_eq. apply Hf. now apply Hm.
Qed.

Lemma wf_read {A : Type} (m : M A) :
  (forall c, snd (m c) = c) -> wf_preserving m.
Proof. intros E c H. now rewrite E. Qed.

Lemma wf_deleteMany : wf_preserving deleteMany_all.
Proof. intros c _. split; constructor. Qed.

Lemma wf_bulkWrite (ops : list (fields * update)) : wf_preserving (bulkWrite ops).
Proof.
  induction ops as [| [f u] rest IH]; simpl.
  - apply wf_ret.
  - apply wf_bind; [apply wf_updateOne |].
    intros r. apply wf_bind; [exact IH |]. intros b. apply wf_ret.
Qed.

Ltac wf_steps :=
  repeat (first [ apply wf_ret
                | apply wf_updateOne
                | apply wf_deleteMany
                | apply wf_bulkWrite
                | apply wf_read; reflexivity
                | apply wf_bind; [| intros ?] ]).

(** Every handler keeps the collection well formed. *)
Lemma wf_handle (r : request) : wf_preserving (handle r).
Proof.
  destruct r as [now | | now | q | body t_set t_insert]; simpl.
  - unfold run_demo, runUpdateUpsertDemo, createIndex_email. wf_steps.
  - unfold clear_data, withCol, createIndex_email. wf_steps.
  - unfold insert_sample, withCol, createIndex_email. wf_steps.
  - apply wf_read. intros c. unfold list_contacts.
    destruct (page q); [reflexivity |].
    destruct (pageSize q); reflexivity.
  - unfold upsert_contact, withCol, createIndex_email.
    destruct (get_prop "email" (body_or_empty body)) as [e |]; [| apply wf_ret].
    destruct (negb (truthy (Some e))); wf_steps.
Qed.

Lemma well_formed_run (rs : list request) (c : collection) :
  well_formed c -> well_formed (run rs c).
Proof.
  revert c. induction rs as [| r rest IH]; intros c H; simpl; [exact H |].
  apply IH. now apply wf_handle.
Qed.

(** ** C5: [createdAt] and the other insert-only fields *)

(** C5, as stated, fails: [city] is an insert-only field of the seed
    upsert, and step A, a conditional update matching the seeded
    document, rewrites it. *)
Lemma insert_only_city_rewritten :
  exists k d d',
    In k (map fst (u_setOnInsert seed_update)) /\
    find (doc_matches aarti_filter) (docs (after_seed empty_collection)) = Some d /\
    find (doc_matches aarti_filter) (docs (after_A empty_collection)) = Some d' /\
    doc_id d' = doc_id d /\
    assoc k (doc_fields d) = Some (VStr "Chennai") /\
    assoc k (doc_fields d') = Some (VStr "Chennai (Adyar)").
Proof.
  exists "city".
  exists (Doc 0%N [("email", VStr "aarti@shade.org.in"); ("name", VStr "Aarti");
                   ("city", VStr "Chennai")]).
  exists (Doc 0%N [("email", VStr "aarti@shade.org.in"); ("name", VStr "Aarti");
                   ("city", VStr "Chennai (Adyar)")]).
  vm_compute. tauto.
Qed.

Lemma updateOne_upsert_on_match (f : fields) (u : update) (c : collection) :
  existsb (doc_matches f) (docs c) = true ->
  updateOne f u true c = updateOne f (Update (u_set u) []) false c.
Proof.
  intros H. unfold updateOne. simpl.
  destruct (update_first f (u_set u) (docs c)) as [[ds ch] |] eqn:E; [reflexivity |].
  destruct (find (doc_matches f) (docs c)) as [d |] eqn:F.
  - destruct (update_first_some f (u_set u) _ _ F) as (? & ? & _ & _ & _ & Hu). congruence.
  - apply find_none_existsb in F. congruence.
Qed.

Lemma contact_set_updatedAt (name city tags : option value) (now : Z) (l : fields) :
  assoc "updatedAt" (apply_set (contact_set name city tags now) l) = Some (VDate now).
Proof.
  unfold contact_set. rewrite !app_assoc. rewrite apply_set_snoc.
  apply assoc_set_field_same.
Qed.

(** C5, amended.  Whatever requests the system serves, a document that
    is still stored has the [createdAt] it had -- or lacks it as it did
    (in a well-formed collection, as every collection the system builds
    from the empty one is):
    an upsert that matches writes none of its insert-only fields, it is
    the conditional update by its [$set].  [createdAt] is given to the
    documents that step C, [/upsert-contact] and [/insert-sample]
    insert, not to the one the script's seed inserts. *)
Theorem createdAt_never_rewritten :
  (forall (rs : list request) (c : collection) (d d' : document),
      well_formed c -> In d (docs c) -> In d' (docs (run rs c)) ->
      doc_id d' = doc_id d ->
      assoc "createdAt" (doc_fields d') = assoc "createdAt" (doc_fields d)) /\
  (forall rs : list request, well_formed (run rs empty_collection)) /\
  (forall (f : fields) (u : update) (c : collection),
      existsb (doc_matches f) (docs c) = true ->
      updateOne f u true c = updateOne f (Update (u_set u) []) false c) /\
  (forall (id : ObjectId) (now : Z),
      assoc "createdAt" (doc_fields (upsert_doc id missing_filter (stepC_update now))) =
        Some (VDate now)) /\
  (forall (id : ObjectId) (e : value) (name city tags : option value) (t_set t_insert : Z),
      assoc "createdAt"
        (doc_fields (upsert_doc id [("email", e)]
                       (contact_update name city tags t_set t_insert))) =
        Some (VDate t_insert)) /\
  (forall (id : ObjectId) (now : Z) (op : fields * update),
      In op (sample_ops now) ->
      assoc "createdAt" (doc_fields (upsert_doc id (fst op) (snd op))) = Some (VDate now)) /\
  (forall id : ObjectId,
      assoc "createdAt" (doc_fields (upsert_doc id aarti_filter seed_update)) = None).
Proof.
  split; [| split; [| split; [| split; [| split; [| split]]]]].
  - intros rs c d d' [ND Fresh] Hd Hd' Id.
    destruct (run_keeps_createdAt rs c) as [_ K].
    destruct (K d' Hd') as [New | (d0 & H0 & Id0 & K0)].
    + rewrite Forall_forall in Fresh. specialize (Fresh d Hd). lia.
    + assert (d0 = d) by (apply (same_id_same_doc c); [assumption .. | congruence]).
      subst d0. now symmetry.
  - intros rs. apply well_formed_run, well_formed_empty.
  - exact updateOne_upsert_on_match.
  - reflexivity.
  - intros id e name city tags t_set t_insert. unfold upsert_doc. simpl.
    apply assoc_set_field_same.
  - intros id now op [<- | [<- | [<- | []]]]; reflexivity.
  - reflexivity.
Qed.

Lemma createdAt_never_rewritten_witness :
  let rs := [RunDemo 5%Z;
             UpsertContact
               (Some (VObj [("email", VStr "missing@example.com"); ("city", VStr "Pune")]))
               7%Z 8%Z] in
  let c := snd (runUpdateUpsertDemo 3%Z empty_collection) in
  let d := Doc 1%N [("email", VStr "missing@example.com"); ("city", VStr "Mumbai");
                    ("createdAt", VDate 3%Z); ("tags", VArr [VStr "Prospect"])] in
  let d' := Doc 1%N [("email", VStr "missing@example.com"); ("city", VStr "Pune");
                     ("createdAt", VDate 3%Z); ("tags", VArr [VStr "Prospect"]);
                     ("updatedAt", VDate 7%Z)] in
  In d (docs c) /\ In d' (docs (run rs c)) /\
  assoc "createdAt" (doc_fields d') = assoc "createdAt" (doc_fields d).
Proof.
  intros rs c d d'.
  split; [vm_compute; tauto |].
  split; [vm_compute; tauto |].
  apply (proj1 createdAt_never_rewritten rs c d d').
  - split.
    + vm_compute. repeat constructor; simpl; intuition discriminate.
    + vm_compute. repeat constructor.
  - vm_compute. tauto.
  - vm_compute. tauto.
  - reflexivity.
Defined.

(** ** [POST /upsert-contact] *)

Lemma upsert_contact_rejects (body : option value) (t_set t_insert : Z) (c : collection) :
  truthy (get_prop "email" (body_or_empty body)) = false ->
  upsert_contact body t_set t_insert c = (bad_request, c).
Proof.
  intros H. unfold upsert_contact.
  destruct (get_prop "email" (body_or_empty body)) as [e |]; [| reflexivity].
  now rewrite H.
Qed.

Lemma upsert_contact_writes (body : option value) (e : value) (t_set t_insert : Z)
      (c : collection) :
  get_prop "email" (body_or_empty body) = Some e ->
  truthy (Some e) = true ->
  upsert_contact body t_set t_insert c =
    (Response 200
       (ok_body "result"
          (upsert_result
             (fst (updateOne [("email", e)]
                     (contact_update (get_prop "name" (body_or_empty body))
                        (get_prop "city" (body_or_empty body))
                        (get_prop "tags" (body_or_empty body)) t_set t_insert)
                     true c)))),
     snd (updateOne [("email", e)]
            (contact_update (get_prop "name" (body_or_empty body))
               (get_prop "city" (body_or_empty body))
               (get_prop "tags" (body_or_empty body)) t_set t_insert)
            true c)).
Proof.
  intros He Ht. unfold upsert_contact. rewrite He, Ht.
  change (negb true) with false. cbv iota.
  unfold withCol. rewrite !bind_eq. reflexivity.
Qed.

Lemma untouched_email_contact_set (e : value) (name city tags : option value) (now : Z) :
  untouched [("email", e)] (contact_set name city tags now).
Proof.
  intros k [<- | []] H. apply contact_set_keys in H. intuition discriminate.
Qed.

(** What a valid [/upsert-contact] does to the collection: it rewrites
    the first contact with that email by the [$set] document, or appends
    the upserted contact. *)
Lemma upsert_contact_effect (body : option value) (e : value) (t_set t_insert : Z)
      (c : collection) :
  get_prop "email" (body_or_empty body) = Some e ->
  truthy (Some e) = true ->
  let s := contact_set (get_prop "name" (body_or_empty body))
             (get_prop "city" (body_or_empty body))
             (get_prop "tags" (body_or_empty body)) t_set in
  let c' := snd (upsert_contact body t_set t_insert c) in
  match find (doc_matches [("email", e)]) (docs c) with
  | Some d =>
      find (doc_matches [("email", e)]) (docs c') = Some (updated s d) /\
      List.length (docs c') = List.length (docs c)
  | None =>
      docs c' = docs c ++
        [upsert_doc (next_oid c) [("email", e)]
           (Update s [("createdAt", VDate t_insert)])]
  end.
Proof.
  intros He Ht s c'. subst c'.
  rewrite (upsert_contact_writes body e t_set t_insert c He Ht). simpl snd.
  destruct (find (doc_matches [("email", e)]) (docs c)) as [d |] eqn:F.
  - destruct (updateOne_match [("email", e)]
                (contact_update (get_prop "name" (body_or_empty body))
                   (get_prop "city" (body_or_empty body))
                   (get_prop "tags" (body_or_empty body)) t_set t_insert)
                true c d F) as (pre & post & Hds & Hpre & ->).
    simpl. split.
    + apply find_app_first; [exact Hpre |].
      destruct d as [id l]. unfold updated. simpl doc_id. simpl doc_fields.
      rewrite doc_matches_apply_set by apply untouched_email_contact_set.
      destruct (update_first_some [("email", e)] [] _ _ F) as (? & ? & _ & _ & Hd & _).
      exact Hd.
    + rewrite Hds, !length_app. reflexivity.
  - rewrite (updateOne_upsert_no_match _ _ c F). reflexivity.
Qed.

(** ** C6: [updatedAt] *)

(** C6, as stated, fails: step A of the script changes the seeded
    contact through [$set] (modified 1), and after the script no stored
    document has an [updatedAt]. *)
Lemma script_sets_no_updatedAt :
  option_map modified (updateExisting (fst (runUpdateUpsertDemo 5%Z empty_collection))) =
    Some 1 /\
  docs (snd (runUpdateUpsertDemo 5%Z empty_collection)) <> [] /\
  forallb (fun d => negb (has_field "updatedAt" (doc_fields d)))
          (docs (snd (runUpdateUpsertDemo 5%Z empty_collection))) = true.
Proof.
  vm_compute. repeat split. discriminate.
Qed.

(** C6, amended.  Every write of [/upsert-contact], for an [email] that
    is not an object or an array, sets [updatedAt], to the time of the
    write, on the document it affects: on the contact it matches, which
    it rewrites in place, or else on the contact it inserts. *)
Theorem upsert_contact_sets_updatedAt
        (body : option value) (e : value) (t_set t_insert : Z) (c : collection) :
  get_prop "email" (body_or_empty body) = Some e ->
  truthy (Some e) = true ->
  scalar e = true ->
  match find (doc_matches [("email", e)]) (docs c) with
  | Some d =>
      exists d',
        find (doc_matches [("email", e)])
             (docs (snd (upsert_contact body t_set t_insert c))) = Some d' /\
        doc_id d' = doc_id d /\
        assoc "updatedAt" (doc_fields d') = Some (VDate t_set)
  | None =>
      exists d',
        docs (snd (upsert_contact body t_set t_insert c)) = docs c ++ [d'] /\
        assoc "email" (doc_fields d') = Some e /\
        assoc "updatedAt" (doc_fields d') = Some (VDate t_set)
  end.
Proof.
  intros He Ht _.
  pose proof (upsert_contact_effect body e t_set t_insert c He Ht) as H. simpl in H.
  destruct (find (doc_matches [("email", e)]) (docs c)) as [d |].
  - destruct H as [H _]. eexists. split; [exact H |]. split; [reflexivity |].
    simpl. apply contact_set_updatedAt.
  - eexists. split; [exact H |]. unfold upsert_doc. simpl doc_fields. split.
    + rewrite assoc_set_field_other by discriminate.
      rewrite assoc_apply_set_other.
      * apply assoc_set_field_same.
      * intros K. apply contact_set_keys in K. intuition discriminate.
    + rewrite assoc_set_field_other by discriminate.
      apply contact_set_updatedAt.
Qed.

Lemma upsert_contact_sets_updatedAt_witness :
  let body := Some (VObj [("email", VStr "aarti@shade.org.in"); ("city", VStr "Pune")]) in
  exists d',
    find (doc_matches [("email", VStr "aarti@shade.org.in")])
         (docs (snd (upsert_contact body 7%Z 8%Z seeded))) = Some d' /\
    doc_id d' = 0%N /\
    assoc "updatedAt" (doc_fields d') = Some (VDate 7%Z).
Proof.
  intros body.
  apply (upsert_contact_sets_updatedAt body (VStr "aarti@shade.org.in") 7%Z 8%Z seeded);
    reflexivity.
Defined.

(** ** C8: validation of [/upsert-contact] *)

(** C8, as stated, fails where an [email] is provided but counts as
    false: the empty string is answered 400, not upserted. *)
Lemma upsert_contact_provided_but_rejected :
  get_prop "email" (body_or_empty (Some (VObj [("email", VStr "")]))) = Some (VStr "") /\
  upsert_contact (Some (VObj [("email", VStr "")])) 7%Z 8%Z seeded =
    (Response 400 (VObj [("ok", VBool false); ("error", VStr "email is required")]),
     seeded).
Proof. split; reflexivity. Qed.

(** C8, amended.  With no [email] in the body, or one that counts as
    false, [/upsert-contact] answers 400 with exactly
    [{ ok: false, error: "email is required" }] and the collection is as
    it was.  With an [email] that counts as true and is not an object or
    an array (a non-empty string, a number other than 0, [true]), it
    performs the upsert keyed by that email and answers
    [{ ok: true, result }] with the result of that upsert. *)
Theorem upsert_contact_requires_email
        (body : option value) (t_set t_insert : Z) (c : collection) :
  (truthy (get_prop "email" (body_or_empty body)) = false ->
   upsert_contact body t_set t_insert c =
     (Response 400 (VObj [("ok", VBool false); ("error", VStr "email is required")]), c)) /\
  (forall e : value,
      get_prop "email" (body_or_empty body) = Some e ->
      truthy (Some e) = true ->
      scalar e = true ->
      exists r c',
        updateOne [("email", e)]
          (contact_update (get_prop "name" (body_or_empty body))
             (get_prop "city" (body_or_empty body))
             (get_prop "tags" (body_or_empty body)) t_set t_insert)
          true c = (r, c') /\
        upsert_contact body t_set t_insert c =
          (Response 200
             (VObj [("ok", VBool true);
                    ("result",
                     VObj [("matched", VNat (Driver.matchedCount r));
                           ("modified", VNat (Driver.modifiedCount r));
                           ("upsertedId",
                            match Driver.upsertedId r with
                            | Some id => VOid id
                            | None => VNull
                            end)])]),
           c')).
Proof.
  split.
  - intros H. now apply upsert_contact_rejects.
  - intros e He Ht _.
    rewrite (upsert_contact_writes body e t_set t_insert c He Ht).
    destruct (updateOne _ _ true c) as [r c'] eqn:U.
    exists r, c'. split; [reflexivity |]. simpl.
    unfold ok_body, upsert_result. now destruct (Driver.upsertedId r).
Qed.

Lemma upsert_contact_requires_email_witness :
  upsert_contact (Some (VObj [("name", VStr "Rahul")])) 7%Z 8%Z seeded =
    (Response 400 (VObj [("ok", VBool false); ("error", VStr "email is required")]),
     seeded) /\
  exists r c',
    updateOne [("email", VStr "rahul@example.com")]
      (contact_update (Some (VStr "Rahul")) None None 7%Z 8%Z) true seeded = (r, c') /\
    upsert_contact
      (Some (VObj [("email", VStr "rahul@example.com"); ("name", VStr "Rahul")]))
      7%Z 8%Z seeded =
      (Response 200
         (VObj [("ok", VBool true);
                ("result",
                 VObj [("matched", VNat (Driver.matchedCount r));
                       ("modified", VNat (Driver.modifiedCount r));
                       ("upsertedId",
                        match Driver.upsertedId r with
                        | Some id => VOid id
                        | None => VNull
                        end)])]),
       c').
Proof.
  split.
  - apply (proj1 (upsert_contact_requires_email
                    (Some (VObj [("name", VStr "Rahul")])) 7%Z 8%Z seeded)).
    reflexivity.
  - apply (proj2 (upsert_contact_requires_email
                    (Some (VObj [("email", VStr "rahul@example.com");
                                 ("name", VStr "Rahul")])) 7%Z 8%Z seeded)
             (VStr "rahul@example.com")); reflexivity.
Defined.

(** ** C9: every falsy [email] is rejected *)

(** C9.  [/upsert-contact] answers the 400 "email is required" response,
    writing nothing, exactly when the body's [email] counts as false:
    when the body is missing, when it has no [email], and when [email]
    is the empty string, [null], [0] or [false].  Only an [email] that
    counts as true reaches [updateOne]. *)
Theorem upsert_contact_rejects_falsy_email
        (body : option value) (t_set t_insert : Z) (c : collection) :
  (truthy (get_prop "email" (body_or_empty body)) = false ->
   upsert_contact body t_set t_insert c = (bad_request, c)) /\
  (truthy (get_prop "email" (body_or_empty body)) = true ->
   exists e,
     get_prop "email" (body_or_empty body) = Some e /\
     fst (upsert_contact body t_set t_insert c) <> bad_request /\
     snd (upsert_contact body t_set t_insert c) =
       snd (updateOne [("email", e)]
              (contact_update (get_prop "name" (body_or_empty body))
                 (get_prop "city" (body_or_empty body))
                 (get_prop "tags" (body_or_empty body)) t_set t_insert)
              true c)) /\
  (body = None -> upsert_contact body t_set t_insert c = (bad_request, c)) /\
  (forall (props : fields) (v : value),
      body = Some (VObj props) ->
      assoc "email" props = Some v ->
      In v [VStr ""; VNull; VNum 0; VBool false] ->
      upsert_contact body t_set t_insert c = (bad_request, c)) /\
  bad_request =
    Response 400 (VObj [("ok", VBool false); ("error", VStr "email is required")]).
Proof.
  split; [apply upsert_contact_rejects |].
  split.
  { intros Ht. destruct (get_prop "email" (body_or_empty body)) as [e |] eqn:He;
      [| discriminate].
    exists e. split; [reflexivity |].
    rewrite (upsert_contact_writes body e t_set t_insert c He Ht). simpl.
    split; [discriminate | reflexivity]. }
  split.
  { intros ->. reflexivity. }
  split; [| reflexivity].
  intros props v -> Hv Hin. apply upsert_contact_rejects. simpl. rewrite Hv.
  simpl in Hin. destruct Hin as [<- | [<- | [<- | [<- | []]]]]; reflexivity.
Qed.

Lemma upsert_contact_rejects_falsy_email_witness :
  upsert_contact (Some (VObj [("email", VNum 0); ("name", VStr "Rahul")])) 7%Z 8%Z seeded =
    (bad_request, seeded) /\
  upsert_contact (Some (VObj [("email", VStr "")])) 7%Z 8%Z seeded = (bad_request, seeded) /\
  upsert_contact None 7%Z 8%Z seeded = (bad_request, seeded).
Proof.
  split; [| split].
  - apply (proj1 (upsert_contact_rejects_falsy_email
                    (Some (VObj [("email", VNum 0); ("name", VStr "Rahul")]))
                    7%Z 8%Z seeded)).
    reflexivity.
  - apply (proj1 (proj2 (proj2 (proj2 (upsert_contact_rejects_falsy_email
                    (Some (VObj [("email", VStr "")])) 7%Z 8%Z seeded))))
             [("email", VStr "")] (VStr "")).
    + reflexivity.
    + reflexivity.
    + simpl. tauto.
  - apply (proj1 (proj2 (proj2 (upsert_contact_rejects_falsy_email None 7%Z 8%Z seeded)))).
    reflexivity.
Defined.

(** ** C10: optional fields left out of [$set] *)

Lemma assoc_not_in (k : string) (l : fields) :
  ~ In k (map fst l) -> assoc k l = None.
Proof.
  induction l as [| [k' v] r IH]; simpl; intros N; [reflexivity |].
  destruct (String.eqb k k') eqn:E.
  - apply String.eqb_eq in E. subst k'. tauto.
  - apply IH. tauto.
Qed.

Lemma contact_set_omits (name city tags : option value) (now : Z) :
  (truthy name = false -> ~ In "name" (map fst (contact_set name city tags now))) /\
  (truthy city = false -> ~ In "city" (map fst (contact_set name city tags now))) /\
  (isArray tags = false -> ~ In "tags" (map fst (contact_set name city tags now))).
Proof.
  unfold contact_set. rewrite !map_app. repeat split; intros F; rewrite !in_app_iff;
    (intros [K | [K | [K | K]]];
     [ destruct name as [v |]; [destruct (truthy (Some v)) eqn:T |]
     | destruct city as [v |]; [destruct (truthy (Some v)) eqn:T |]
     | destruct tags as [v |]; [destruct (isArray (Some v)) eqn:T |]
     | ]; simpl in K; try congruence;
     intuition discriminate).
Qed.

Lemma contact_set_has_updatedAt (name city tags : option value) (now : Z) :
  assoc "updatedAt" (contact_set name city tags now) = Some (VDate now).
Proof.
  unfold contact_set.
  destruct name as [v1 |]; [destruct (truthy (Some v1)) |];
    (destruct city as [v2 |]; [destruct (truthy (Some v2)) |]);
    (destruct tags as [v3 |]; [destruct (isArray (Some v3)) |]);
    reflexivity.
Qed.

(** C10.  In [/upsert-contact], for an [email] that counts as true and
    is not an object or an array, a [name] or [city] that counts as
    false (the empty string among them) and a [tags] that is not an
    array are not in the [$set] document, which always has [updatedAt];
    the request is answered 200; and the contact it affects keeps the
    stored value of each omitted field -- or, newly inserted, has no
    such field -- while its [updatedAt] is set. *)
Theorem upsert_contact_omits_falsy_fields
        (body : option value) (e : value) (t_set t_insert : Z) (c : collection) :
  get_prop "email" (body_or_empty body) = Some e ->
  truthy (Some e) = true ->
  scalar e = true ->
  let name := get_prop "name" (body_or_empty body) in
  let city := get_prop "city" (body_or_empty body) in
  let tags := get_prop "tags" (body_or_empty body) in
  let s := contact_set name city tags t_set in
  let c' := snd (upsert_contact body t_set t_insert c) in
  ((truthy name = false -> assoc "name" s = None) /\
   (truthy city = false -> assoc "city" s = None) /\
   (isArray tags = false -> assoc "tags" s = None) /\
   assoc "updatedAt" s = Some (VDate t_set)) /\
  (exists result, fst (upsert_contact body t_set t_insert c) =
                    Response 200 (VObj [("ok", VBool true); ("result", result)])) /\
  match find (doc_matches [("email", e)]) (docs c) with
  | Some d =>
      exists d',
        find (doc_matches [("email", e)]) (docs c') = Some d' /\
        doc_id d' = doc_id d /\
        (truthy name = false -> assoc "name" (doc_fields d') = assoc "name" (doc_fields d)) /\
        (truthy city = false -> assoc "city" (doc_fields d') = assoc "city" (doc_fields d)) /\
        (isArray tags = false -> assoc "tags" (doc_fields d') = assoc "tags" (doc_fields d)) /\
        assoc "updatedAt" (doc_fields d') = Some (VDate t_set)
  | None =>
      exists d',
        docs c' = docs c ++ [d'] /\
        (truthy name = false -> assoc "name" (doc_fields d') = None) /\
        (truthy city = false -> assoc "city" (doc_fields d') = None) /\
        (isArray tags = false -> assoc "tags" (doc_fields d') = None) /\
        assoc "updatedAt" (doc_fields d') = Some (VDate t_set)
  end.
Proof.
  intros He Ht _ name city tags s c'.
  destruct (contact_set_omits name city tags t_set) as (On & Oc & Ot).
  fold s in On, Oc, Ot.
  split.
  { repeat split; intros; try (apply assoc_not_in; auto).
    apply contact_set_has_updatedAt. }
  split.
  { subst c'. rewrite (upsert_contact_writes body e t_set t_insert c He Ht).
    simpl. eexists. reflexivity. }
  pose proof (upsert_contact_effect body e t_set t_insert c He Ht) as H. simpl in H.
  fold name city tags s c' in H.
  destruct (find (doc_matches [("email", e)]) (docs c)) as [d |].
  - destruct H as [H _]. exists (updated s d). split; [exact H |].
    split; [reflexivity |]. simpl.
    repeat split; intros; try (apply assoc_apply_set_other; auto).
    apply contact_set_updatedAt.
  - eexists. split; [exact H |]. unfold upsert_doc. simpl doc_fields.
    repeat split; intros;
      rewrite assoc_set_field_other by discriminate;
      try (rewrite assoc_apply_set_other by auto;
           rewrite assoc_set_field_other by discriminate; reflexivity).
    apply contact_set_updatedAt.
Qed.

Lemma upsert_contact_omits_falsy_fields_witness :
  let body := Some (VObj [("email", VStr "aarti@shade.org.in"); ("name", VStr "");
                          ("city", VStr "Pune"); ("tags", VStr "Volunteer")]) in
  let e := VStr "aarti@shade.org.in" in
  let name := get_prop "name" (body_or_empty body) in
  let city := get_prop "city" (body_or_empty body) in
  let tags := get_prop "tags" (body_or_empty body) in
  let s := contact_set name city tags 7%Z in
  let c' := snd (upsert_contact body 7%Z 8%Z seeded) in
  let d := Doc 0%N [("email", VStr "aarti@shade.org.in"); ("name", VStr "Aarti");
                    ("city", VStr "Chennai")] in
  ((truthy name = false -> assoc "name" s = None) /\
   (truthy city = false -> assoc "city" s = None) /\
   (isArray tags = false -> assoc "tags" s = None) /\
   assoc "updatedAt" s = Some (VDate 7%Z)) /\
  (exists result, fst (upsert_contact body 7%Z 8%Z seeded) =
                    Response 200 (VObj [("ok", VBool true); ("result", result)])) /\
  exists d',
    find (doc_matches [("email", e)]) (docs c') = Some d' /\
    doc_id d' = doc_id d /\
    (truthy name = false -> assoc "name" (doc_fields d') = assoc "name" (doc_fields d)) /\
    (truthy city = false -> assoc "city" (doc_fields d') = assoc "city" (doc_fields d)) /\
    (isArray tags = false -> assoc "tags" (doc_fields d') = assoc "tags" (doc_fields d)) /\
    assoc "updatedAt" (doc_fields d') = Some (VDate 7%Z).
Proof.
  intros body e name city tags s c' d.
  apply (upsert_contact_omits_falsy_fields body e 7%Z 8%Z seeded); reflexivity.
Defined.

(** ** C7: paging of [/list-contacts] *)

(** Whenever the page number is a number it is at least 1, and whenever
    the page size is a number it is between 1 and 100. *)
Lemma page_clamped (q : query) (p : Z) : page q = Num p -> (1 <= p)%Z.
Proof.
  unfold page, Math_max. destruct (parseInt _); [discriminate |].
  intros [= <-]. lia.
Qed.

Lemma pageSize_clamped (q : query) (n : Z) : pageSize q = Num n -> (1 <= n <= 100)%Z.
Proof.
  unfold pageSize, Math_min, Math_max. destruct (parseInt _); [discriminate |].
  intros [= <-]. lia.
Qed.

(** A missing or empty parameter takes the default. *)
Lemma page_default (q : query) :
  q_page q = None \/ q_page q = Some "" -> page q = Num 1.
Proof. unfold page. intros [-> | ->]; reflexivity. Qed.

Lemma pageSize_default (q : query) :
  q_pageSize q = None \/ q_pageSize q = Some "" -> pageSize q = Num 10.
Proof. unfold pageSize. intros [-> | ->]; reflexivity. Qed.

(** C7 fails on the code for a parameter that is not numeric:
    [parseInt] gives [NaN], [Math.max(1, NaN)] and
    [Math.min(100, NaN)] are [NaN], so neither the page number nor the
    page size is clamped. *)
Theorem list_contacts_non_numeric_not_clamped :
  page {| q_page := Some "abc"; q_pageSize := None; q_city := None; q_tag := None |} = NaN /\
  pageSize {| q_page := None; q_pageSize := Some "abc"; q_city := None; q_tag := None |} = NaN /\
  ~ (forall q : query, exists p : Z, page q = Num p /\ (1 <= p)%Z) /\
  ~ (forall q : query, exists n : Z, pageSize q = Num n /\ (1 <= n <= 100)%Z).
Proof.
  split; [reflexivity |]. split; [reflexivity |]. split.
  - intros H.
    destruct (H {| q_page := Some "abc"; q_pageSize := None; q_city := None;
                   q_tag := None |}) as (p & E & _).
    discriminate.
  - intros H.
    destruct (H {| q_page := None; q_pageSize := Some "abc"; q_city := None;
                   q_tag := None |}) as (n & E & _).
    discriminate.
Qed.

(** ** The sort on [email] and the slice of a page *)

Lemma then_compare_opp (c d : comparison) :
  CompOpp (then_compare c d) = then_compare (CompOpp c) (CompOpp d).
Proof. now destruct c. Qed.

Lemma value_compare_antisym (a b : value) :
  value_compare b a = CompOpp (value_compare a b).
Proof.
  revert b. induction a as [| x | x | x | x | x | xs IH | xs IH] using value_ind;
    intros [| y | y | y | y | y | ys | ys]; try reflexivity; simpl.
  - now destruct x, y.
  - apply Z.compare_antisym.
  - apply String.compare_antisym.
  - apply Z.compare_antisym.
  - apply N.compare_antisym.
  - revert ys. induction IH as [| x r Hx _ IHr]; intros [| y ys]; try reflexivity.
    rewrite then_compare_opp, <- Hx, <- IHr. reflexivity.
  - revert ys. induction IH as [| [k x] r Hx _ IHr]; intros [| [k' y] ys];
      try reflexivity.
    simpl in Hx. rewrite !then_compare_opp, <- Hx, <- IHr.
    rewrite <- Z.compare_antisym, <- String.compare_antisym. reflexivity.
Qed.

(** The order of the sort is total. *)
Lemma key_leb_total (a b : option value) :
  key_leb a b = false -> key_leb b a = true.
Proof.
  destruct a as [x |], b as [y |]; simpl; try discriminate; try reflexivity.
  rewrite (value_compare_antisym x y).
  now destruct (value_compare x y).
Qed.

Lemma insert_by_email_sorted (d : fields) (l : list fields) :
  Sorted email_le l -> Sorted email_le (insert_by_email d l).
Proof.
  induction 1 as [| x r Hr IH Hx]; simpl.
  - repeat constructor.
  - destruct (key_leb (email_sort_key d) (email_sort_key x)) eqn:E.
    + constructor; [now constructor | constructor; exact E].
    + constructor; [exact IH |].
      destruct r as [| y r']; simpl.
      * constructor. now apply key_leb_total.
      * destruct (key_leb (email_sort_key d) (email_sort_key y)).
        { constructor. now apply key_leb_total. }
        { constructor. now inversion Hx. }
Qed.

Lemma sort_by_email_sorted (l : list fields) : Sorted email_le (sort_by_email l).
Proof.
  induction l as [| d r IH]; simpl; [constructor | now apply insert_by_email_sorted].
Qed.

Lemma insert_by_email_In (d x : fields) (l : list fields) :
  In x (insert_by_email d l) <-> x = d \/ In x l.
Proof.
  induction l as [| y r IH]; simpl.
  - intuition.
  - destruct (key_leb (email_sort_key d) (email_sort_key y)); simpl; intuition.
Qed.

Lemma sort_by_email_In (x : fields) (l : list fields) :
  In x (sort_by_email l) <-> In x l.
Proof.
  induction l as [| d r IH]; simpl; [tauto |].
  rewrite insert_by_email_In, IH. intuition.
Qed.

Lemma sort_by_email_length (l : list fields) :
  List.length (sort_by_email l) = List.length l.
Proof.
  induction l as [| d r IH]; simpl; [reflexivity |].
  rewrite <- IH. generalize (sort_by_email r). intros s.
  induction s as [| y s' IHs]; simpl; [reflexivity |].
  destruct (key_leb (email_sort_key d) (email_sort_key y)); simpl; [reflexivity |].
  now rewrite IHs.
Qed.




(** * Further properties of the script and the handlers *)

(** ** The script's steps A and C, and what it stores *)

Lemma existsb_true_find (f : fields) (ds : list document) :
  existsb (doc_matches f) ds = true -> exists d, find (doc_matches f) ds = Some d.
Proof.
  intros H. destruct (find (doc_matches f) ds) as [d |] eqn:F; [now exists d |].
  apply find_none_existsb in F. congruence.
Qed.

Lemma find_some_existsb (f : fields) (ds : list document) (d : document) :
  find (doc_matches f) ds = Some d -> existsb (doc_matches f) ds = true.
Proof.
  intros F. destruct (existsb (doc_matches f) ds) eqn:E; [reflexivity |].
  apply find_none_existsb in E. congruence.
Qed.

(** The seed gives step A its target. *)
Lemma after_seed_has_aarti (c : collection) :
  existsb (doc_matches aarti_filter) (docs (after_seed c)) = true.
Proof.
  unfold after_seed. rewrite updateOne_existsb by apply untouched_nothing.
  destruct (existsb (doc_matches aarti_filter) (docs c)); reflexivity.
Qed.

Lemma updateOne_length (f : fields) (u : update) (upsert : bool) (c : collection) :
  List.length (docs (snd (updateOne f u upsert c))) =
  List.length (docs c) +
  (if upsert && negb (existsb (doc_matches f) (docs c)) then 1 else 0).
Proof.
  destruct (find (doc_matches f) (docs c)) as [d |] eqn:F.
  - rewrite (find_some_existsb _ _ _ F), andb_false_r.
    destruct (updateOne_match f u upsert c d F) as (pre & post & Hds & _ & ->).
    simpl. rewrite Hds, !length_app. simpl. lia.
  - pose proof F as E. apply find_none_existsb in E. rewrite E.
    destruct upsert.
    + rewrite (updateOne_upsert_no_match f u c F). simpl.
      rewrite length_app. simpl. lia.
    + rewrite (updateOne_no_match f u c F). simpl. lia.
Qed.

(** Step A always finds the contact: on every collection it reports
    matched 1 and no [upsertedId]; and when the script had to seed the
    contact itself, it reports modified 1. *)
Theorem stepA_always_matches (now : Z) (c : collection) :
  exists r,
    updateExisting (fst (runUpdateUpsertDemo now c)) = Some r /\
    matched r = 1 /\
    upsertedId r = None /\
    modified r <= 1 /\
    (existsb (doc_matches aarti_filter) (docs c) = false -> modified r = 1).
Proof.
  rewrite runUpdateUpsertDemo_eq. simpl.
  eexists. split; [reflexivity |].
  destruct (existsb_true_find _ _ (after_seed_has_aarti c)) as [d F].
  destruct (updateOne_match aarti_filter stepA_update false _ d F)
    as (pre & post & Hds & Hpre & ->).
  simpl. split; [reflexivity |]. split; [reflexivity |].
  split; [destruct (fields_eqb _ _); lia |].
  intros E. apply find_none_existsb in E.
  unfold after_seed in F, Hds.
  rewrite (updateOne_upsert_no_match aarti_filter seed_update c E) in F, Hds.
  simpl in F, Hds.
  assert (Hd : d = upsert_doc (next_oid c) aarti_filter seed_update).
  { apply find_none_existsb in E.
    clear Hds Hpre. induction (docs c) as [| x r IH]; simpl in *.
    - now injection F as <-.
    - apply orb_false_iff in E. destruct E as [Ex Er].
      rewrite Ex in F. now apply IH. }
  subst d. reflexivity.
Qed.

Lemma updateOne_next_oid (f : fields) (u : update) (upsert : bool) (c : collection) :
  next_oid (snd (updateOne f u upsert c)) =
  if upsert && negb (existsb (doc_matches f) (docs c))
  then N.succ (next_oid c) else next_oid c.
Proof.
  destruct (find (doc_matches f) (docs c)) as [d |] eqn:F.
  - rewrite (find_some_existsb _ _ _ F), andb_false_r.
    now destruct (updateOne_match f u upsert c d F) as (pre & post & _ & _ & ->).
  - pose proof F as E. apply find_none_existsb in E. rewrite E.
    destruct upsert.
    + now rewrite (updateOne_upsert_no_match f u c F).
    + now rewrite (updateOne_no_match f u c F).
Qed.

Lemma after_B_missing (c : collection) :
  existsb (doc_matches missing_filter) (docs (after_B c)) =
  existsb (doc_matches missing_filter) (docs c).
Proof.
  unfold after_B. rewrite updateOne_existsb by apply untouched_email_city.
  simpl. rewrite orb_false_r. apply after_A_missing.
Qed.

Lemma after_B_next_oid (c : collection) :
  next_oid (after_B c) =
  if existsb (doc_matches aarti_filter) (docs c) then next_oid c else N.succ (next_oid c).
Proof.
  unfold after_B, after_A, after_seed. rewrite !updateOne_next_oid. simpl.
  now destruct (existsb (doc_matches aarti_filter) (docs c)).
Qed.

(** Step C never reports a modification.  When a contact matches
    [{ email: "missing@example.com" }] as the script starts, step C finds
    it just as step B left it: matched 1, modified 0, no [upsertedId].
    When none does, step C inserts it: matched 0, modified 0 and the
    [upsertedId] of the new document. *)
Theorem stepC_result (now : Z) (c : collection) :
  exists r,
    upsertMissing (fst (runUpdateUpsertDemo now c)) = Some r /\
    modified r = 0 /\
    (if existsb (doc_matches missing_filter) (docs c)
     then matched r = 1 /\ upsertedId r = None
     else matched r = 0 /\
          upsertedId r =
            Some (ObjectId_toString
                    (if existsb (doc_matches aarti_filter) (docs c)
                     then next_oid c else N.succ (next_oid c)))).
Proof.
  rewrite runUpdateUpsertDemo_eq. simpl.
  eexists. split; [reflexivity |].
  pose proof (after_A_missing c) as HA.
  pose proof (after_B_missing c) as HB.
  destruct (existsb (doc_matches missing_filter) (docs c)) eqn:E.
  - rewrite (updateOne_upsert_on_match missing_filter (stepC_update now) _ HB).
    destruct (existsb_true_find _ _ HA) as [d F].
    destruct (updateOne missing_filter stepB_update false (after_A c)) as [r1 c1] eqn:U1.
    assert (C1 : after_B c = c1) by (unfold after_B; now rewrite U1).
    rewrite C1.
    destruct (updateOne missing_filter stepB_update false c1) as [r2 c2] eqn:U2.
    destruct (updateOne_twice_untouched missing_filter stepB_update (after_A c) c1 c2 d r1 r2
                (untouched_email_city _ _) F U1 U2) as (_ & R2 & _).
    change (updateOne missing_filter (Update (u_set (stepC_update now)) []) false c1)
      with (updateOne missing_filter stepB_update false c1).
    rewrite U2. simpl fst. rewrite R2. simpl. auto.
  - apply find_none_existsb in HB.
    rewrite (updateOne_upsert_no_match missing_filter (stepC_update now) _ HB).
    simpl. rewrite after_B_next_oid. auto.
Qed.

(** The script deletes nothing and inserts exactly those of its two
    contacts that no stored document matches. *)
Theorem script_document_count (now : Z) (c : collection) :
  fst (countDocuments [] (snd (runUpdateUpsertDemo now c))) =
  fst (countDocuments [] c) +
  (if existsb (doc_matches aarti_filter) (docs c) then 0 else 1) +
  (if existsb (doc_matches missing_filter) (docs c) then 0 else 1).
Proof.
  rewrite runUpdateUpsertDemo_eq. simpl snd. rewrite !countDocuments_all.
  unfold after_C. rewrite updateOne_length, after_B_missing.
  unfold after_B. rewrite updateOne_length.
  unfold after_A. rewrite updateOne_length.
  unfold after_seed. rewrite updateOne_length. simpl.
  destruct (existsb (doc_matches aarti_filter) (docs c)),
           (existsb (doc_matches missing_filter) (docs c)); simpl; lia.
Qed.

(** The snapshot of the report lists the stored documents, each once
    and without [_id], in ascending order of [email]; both contacts of
    the script are among them. *)
Theorem script_snapshot (now : Z) (c : collection) :
  let r := fst (runUpdateUpsertDemo now c) in
  let c' := snd (runUpdateUpsertDemo now c) in
  Sorted email_le (finalDocs r) /\
  List.length (finalDocs r) = List.length (docs c') /\
  (forall x, In x (finalDocs r) <-> exists d, In d (docs c') /\ doc_fields d = x) /\
  (exists d, In (doc_fields d) (finalDocs r) /\ doc_matches aarti_filter d = true) /\
  (exists d, In (doc_fields d) (finalDocs r) /\ doc_matches missing_filter d = true).
Proof.
  intros r c'. subst r c'. rewrite runUpdateUpsertDemo_eq. simpl.
  assert (All : List.filter (doc_matches []) (docs (after_C now c)) = docs (after_C now c)).
  { induction (docs (after_C now c)) as [| d l IH]; simpl; [reflexivity | now rewrite IH]. }
  rewrite All.
  assert (Mem : forall x, In x (sort_by_email (map doc_fields (docs (after_C now c)))) <->
                          exists d, In d (docs (after_C now c)) /\ doc_fields d = x).
  { intros x. rewrite sort_by_email_In, in_map_iff.
    split; intros (d & H1 & H2); exists d; auto. }
  split; [apply sort_by_email_sorted |].
  split; [now rewrite sort_by_email_length, length_map |].
  split; [exact Mem |].
  assert (Ex : forall f, existsb (doc_matches f) (docs (after_C now c)) = true ->
               exists d, In (doc_fields d)
                           (sort_by_email (map doc_fields (docs (after_C now c)))) /\
                         doc_matches f d = true).
  { intros f H. apply existsb_exists in H. destruct H as (d & Hin & Hm).
    exists d. split; [| exact Hm]. apply Mem. now exists d. }
  split; [apply (Ex aarti_filter) | apply (Ex missing_filter)].
  - unfold after_C. rewrite updateOne_existsb by apply untouched_email_city.
    unfold after_B. rewrite updateOne_existsb by apply untouched_email_city.
    unfold after_A. rewrite updateOne_existsb by apply untouched_email_city.
    now rewrite after_seed_has_aarti.
  - unfold after_C. rewrite updateOne_existsb by apply untouched_email_city.
    destruct (existsb (doc_matches missing_filter) (docs (after_B c))); reflexivity.
Qed.

(** After [/clear-data], [/run-demo] reports what the README expects of
    a first run, whatever the collection held before: step A matched 1,
    modified 1; step B matched 0, modified 0; step C matched 0, modified
    0 with the [upsertedId] of the contact it inserts; and as final
    documents the two contacts, the seeded one first, each with its
    fields and no other. *)
Theorem clear_then_demo (now : Z) (c : collection) :
  let c0 := snd (clear_data c) in
  let r := fst (runUpdateUpsertDemo now c0) in
  fst (clear_data c) = Response 200 (ok_body "result" (VObj [("deleted", VBool true)])) /\
  docs c0 = [] /\
  updateExisting r = Some {| matched := 1; modified := 1; upsertedId := None |} /\
  updateMissingNoUpsert r = Some {| matched := 0; modified := 0; upsertedId := None |} /\
  upsertMissing r =
    Some {| matched := 0; modified := 0;
            upsertedId := Some (ObjectId_toString (N.succ (next_oid c))) |} /\
  exists a m : fields,
    finalDocs r = [a; m] /\
    (assoc "email" a = Some (VStr "aarti@shade.org.in") /\
     assoc "name" a = Some (VStr "Aarti") /\
     assoc "city" a = Some (VStr "Chennai (Adyar)") /\
     List.length a = 3) /\
    (assoc "email" m = Some (VStr "missing@example.com") /\
     assoc "city" m = Some (VStr "Mumbai") /\
     assoc "createdAt" m = Some (VDate now) /\
     assoc "tags" m = Some (VArr [VStr "Prospect"]) /\
     List.length m = 4).
Proof.
  repeat split. eexists. eexists. repeat split.
Qed.

(** ** Fields the handlers never rewrite *)

Lemma preserving_handle (k : string) (r : request) :
  ~ In k contact_fields -> preserving k (handle r).
Proof.
  unfold contact_fields. simpl. intros Hk.
  destruct r as [now | | now | q | body t_set t_insert]; simpl.
  - unfold run_demo, runUpdateUpsertDemo.
    repeat (first [ apply preserving_ret
                  | apply preserving_bind; [| intros ?]
                  | apply preserving_updateOne; simpl; intuition congruence
                  | apply preserving_read; reflexivity ]).
  - unfold clear_data.
    apply preserving_bind; [| intros ?; apply preserving_ret].
    apply preserving_withCol.
    apply preserving_bind; [apply preserving_deleteMany | intros ?; apply preserving_ret].
  - unfold insert_sample.
    apply preserving_bind; [| intros ?; apply preserving_ret].
    apply preserving_withCol.
    apply preserving_bind.
    + apply preserving_bulkWrite. repeat constructor; simpl; tauto.
    + intros ?. apply preserving_bind; [apply preserving_read; reflexivity |].
      intros ?. apply preserving_ret.
  - apply preserving_read. intros c. unfold list_contacts.
    destruct (page q); [reflexivity |].
    destruct (pageSize q); reflexivity.
  - unfold upsert_contact.
    destruct (get_prop "email" (body_or_empty body)) as [e |]; [| apply preserving_ret].
    destruct (negb (truthy (Some e))); [apply preserving_ret |].
    apply preserving_bind; [| intros ?; apply preserving_ret].
    apply preserving_withCol.
    apply preserving_bind; [| intros ?; apply preserving_ret].
    apply preserving_updateOne. simpl. intros H.
    apply contact_set_keys in H. intuition congruence.
Qed.

Lemma run_keeps (k : string) (rs : list request) (c : collection) :
  ~ In k contact_fields -> keeps k c (run rs c).
Proof.
  intros Hk. revert c. induction rs as [| r rest IH]; intros c; simpl.
  - apply keeps_refl.
  - eapply keeps_trans; [now apply preserving_handle | apply IH].
Qed.

(** Whatever requests are served, a stored contact keeps its [email],
    and every other field that is not [name], [city], [tags] or
    [updatedAt]: no handler changes, adds or removes such a field of a
    document that exists. *)
Theorem stored_email_never_changes
        (k : string) (rs : list request) (c : collection) (d d' : document) :
  ~ In k contact_fields ->
  well_formed c ->
  In d (docs c) ->
  In d' (docs (run rs c)) ->
  doc_id d' = doc_id d ->
  assoc k (doc_fields d') = assoc k (doc_fields d).
Proof.
  intros Hk [ND Fresh] Hd Hd' Id.
  destruct (run_keeps k rs c Hk) as [_ K].
  destruct (K d' Hd') as [New | (d0 & H0 & Id0 & K0)].
  - rewrite Forall_forall in Fresh. specialize (Fresh d Hd). lia.
  - assert (d0 = d) by (apply (same_id_same_doc c); [assumption .. | congruence]).
    subst d0. now symmetry.
Qed.

Lemma stored_email_never_changes_witness :
  let rs := [UpsertContact
               (Some (VObj [("email", VStr "aarti@shade.org.in"); ("name", VStr "A.");
                            ("city", VStr "Pune"); ("tags", VArr [VStr "Donor"])]))
               7%Z 8%Z;
             RunDemo 9%Z; InsertSample 10%Z] in
  let d := Doc 0%N [("email", VStr "aarti@shade.org.in"); ("name", VStr "Aarti");
                    ("city", VStr "Chennai")] in
  let d' := nth 0 (docs (run rs seeded)) d in
  In d' (docs (run rs seeded)) /\
  doc_id d' = doc_id d /\
  assoc "email" (doc_fields d') = assoc "email" (doc_fields d).
Proof.
  intros rs d d'.
  split; [vm_compute; tauto |]. split; [reflexivity |].
  apply (stored_email_never_changes "email" rs seeded d d').
  - unfold contact_fields. simpl. intuition discriminate.
  - split.
    + simpl. repeat constructor. simpl. tauto.
    + simpl. repeat constructor.
  - simpl. tauto.
  - vm_compute. tauto.
  - reflexivity.
Defined.

(** ** One contact per email *)

Lemma invariant_ret {A : Type} (I : collection -> Prop) (a : A) : invariant_of I (ret a).
Proof. intros c H. exact H. Qed.

Lemma invariant_bind {A B : Type} (I : collection -> Prop) (m : M A) (f : A -> M B) :
  invariant_of I m -> (forall a, invariant_of I (f a)) -> invariant_of I (bind m f).
Proof. intros Hm Hf c H. rewrite bind_eq. apply Hf. now apply Hm. Qed.

Lemma invariant_read {A : Type} (I : collection -> Prop) (m : M A) :
  (forall c, snd (m c) = c) -> invariant_of I m.
Proof. intros E c H. now rewrite E. Qed.

Lemma update_first_emails (k : string) (f s : fields) (ds ds' : list document)
      (changed : bool) :
  ~ In k (map fst s) ->
  update_first f s ds = Some (ds', changed) ->
  map (fun d => assoc k (doc_fields d)) ds' = map (fun d => assoc k (doc_fields d)) ds.
Proof.
  intros N. revert ds' changed.
  induction ds as [| x r IH]; simpl; intros ds' changed H; [discriminate |].
  destruct (doc_matches f x).
  - injection H as <- _. simpl. now rewrite assoc_apply_set_other by exact N.
  - destruct (update_first f s r) as [[r' ch] |]; [| discriminate].
    injection H as <- _. simpl. now rewrite (IH r' ch eq_refl).
Qed.

(** A document whose [email] is [e] matches [{ email: e }]. *)
Lemma email_matches_itself (e : value) (d : document) :
  assoc "email" (doc_fields d) = Some e -> doc_matches [("email", e)] d = true.
Proof.
  intros H. unfold doc_matches. simpl. rewrite H. simpl.
  unfold value_matches. now rewrite value_eqb_refl.
Qed.

(** An update keyed by email inserts only an email no document has. *)
Lemma unique_emails_updateOne (e : value) (u : update) (upsert : bool) :
  keyed_by_email e u -> invariant_of unique_emails (updateOne [("email", e)] u upsert).
Proof.
  intros [Hset Hins] c U. unfold unique_emails in *. unfold updateOne.
  destruct (update_first [("email", e)] (u_set u) (docs c)) as [[ds ch] |] eqn:E.
  - simpl. now rewrite (update_first_emails "email" _ _ _ _ _ Hset E).
  - destruct upsert; [| exact U]. cbn [snd docs].
    rewrite map_app. cbn [map]. rewrite Hins.
    apply NoDup_app; [exact U | repeat constructor; tauto |].
    intros o Ho [<- | []].
    apply in_map_iff in Ho. destruct Ho as (d & Hd & Hin).
    assert (F : existsb (doc_matches [("email", e)]) (docs c) = true).
    { apply existsb_exists. exists d. split; [exact Hin |].
      now apply email_matches_itself. }
    destruct (existsb_true_find _ _ F) as [d0 F0].
    destruct (update_first_some [("email", e)] (u_set u) _ _ F0) as (? & ? & _ & _ & _ & Hu).
    congruence.
Qed.

Lemma unique_emails_bulkWrite (ops : list (fields * update)) :
  Forall (fun op => exists e, fst op = [("email", e)] /\ keyed_by_email e (snd op)) ops ->
  invariant_of unique_emails (bulkWrite ops).
Proof.
  induction 1 as [| [f u] rest (e & Hf & Hu) _ IH]; simpl.
  - apply invariant_ret.
  - simpl in Hf, Hu. subst f.
    apply invariant_bind; [now apply unique_emails_updateOne |].
    intros r. apply invariant_bind; [exact IH |]. intros b. apply invariant_ret.
Qed.

Lemma contact_update_keyed (e : value) (name city tags : option value) (t_set t_insert : Z) :
  keyed_by_email e (contact_update name city tags t_set t_insert).
Proof.
  split.
  - simpl. intros H. apply contact_set_keys in H. intuition discriminate.
  - intros id. unfold upsert_doc. simpl.
    rewrite assoc_set_field_other by discriminate.
    rewrite assoc_apply_set_other.
    + apply assoc_set_field_same.
    + intros K. apply contact_set_keys in K. intuition discriminate.
Qed.

Lemma unique_emails_handle (r : request) : invariant_of unique_emails (handle r).
Proof.
  destruct r as [now | | now | q | body t_set t_insert]; simpl.
  - unfold run_demo, runUpdateUpsertDemo, createIndex_email.
    repeat (first [ apply invariant_ret
                  | apply invariant_read; reflexivity
                  | apply unique_emails_updateOne;
                    split; [simpl; intuition discriminate | reflexivity]
                  | apply invariant_bind; [| intros ?] ]).
  - unfold clear_data, withCol, createIndex_email.
    repeat (first [ apply invariant_ret | apply invariant_bind; [| intros ?] ]).
    intros c _. constructor.
  - unfold insert_sample, withCol, createIndex_email.
    apply invariant_bind; [| intros ?; apply invariant_ret].
    apply invariant_bind; [apply invariant_ret | intros _].
    apply invariant_bind.
    + apply unique_emails_bulkWrite.
      repeat constructor; eexists; (split; [reflexivity |]);
        (split; [simpl; tauto | reflexivity]).
    + intros ?. apply invariant_bind; [apply invariant_read; reflexivity |].
      intros ?. apply invariant_ret.
  - apply invariant_read. intros c. unfold list_contacts.
    destruct (page q); [reflexivity |].
    destruct (pageSize q); reflexivity.
  - unfold upsert_contact, withCol, createIndex_email.
    destruct (get_prop "email" (body_or_empty body)) as [e |]; [| apply invariant_ret].
    destruct (negb (truthy (Some e))); [apply invariant_ret |].
    repeat (first [ apply invariant_ret
                  | apply unique_emails_updateOne; apply contact_update_keyed
                  | apply invariant_bind; [| intros ?] ]).
Qed.

(** Served one at a time, the requests keep the emails of the stored
    contacts distinct: every write is an update or an upsert keyed by
    [{ email }], which inserts only when no stored contact has that
    email, and no write changes an email. *)
Theorem emails_stay_unique (rs : list request) (c : collection) :
  unique_emails c -> unique_emails (run rs c).
Proof.
  revert c. induction rs as [| r rest IH]; intros c H; simpl; [exact H |].
  apply IH. now apply unique_emails_handle.
Qed.

Lemma emails_stay_unique_witness :
  unique_emails
    (run [InsertSample 5%Z; RunDemo 6%Z;
          UpsertContact (Some (VObj [("email", VStr "rahul@example.com")])) 7%Z 8%Z;
          InsertSample 9%Z]
       empty_collection).
Proof.
  apply (emails_stay_unique
           [InsertSample 5%Z; RunDemo 6%Z;
            UpsertContact (Some (VObj [("email", VStr "rahul@example.com")])) 7%Z 8%Z;
            InsertSample 9%Z] empty_collection).
  unfold unique_emails. simpl. constructor.
Defined.

(** ** More on [POST /upsert-contact] *)

(** After a valid [/upsert-contact] the collection holds a contact
    matching its email. *)
Lemma upsert_contact_then_present (body : option value) (e : value) (t_set t_insert : Z)
      (c : collection) :
  get_prop "email" (body_or_empty body) = Some e ->
  truthy (Some e) = true ->
  existsb (doc_matches [("email", e)])
          (docs (snd (upsert_contact body t_set t_insert c))) = true.
Proof.
  intros He Ht.
  pose proof (upsert_contact_effect body e t_set t_insert c He Ht) as H. simpl in H.
  destruct (find (doc_matches [("email", e)]) (docs c)) as [d |].
  - destruct H as [H _]. exact (find_some_existsb _ _ _ H).
  - rewrite H, existsb_app. cbn [existsb].
    rewrite (email_matches_itself e); [now rewrite orb_false_r, orb_true_r |].
    apply contact_update_keyed.
Qed.

(** Two requests with the same email (not an object or an array) never
    make two contacts: the second one, whatever else its body holds,
    matches (matched 1, a null [upsertedId]) and the number of documents
    stays what the first left. *)
Theorem upsert_contact_twice_one_contact
        (body body' : option value) (e : value) (t1 t2 t3 t4 : Z) (c : collection) :
  get_prop "email" (body_or_empty body) = Some e ->
  get_prop "email" (body_or_empty body') = Some e ->
  truthy (Some e) = true ->
  scalar e = true ->
  let c1 := snd (upsert_contact body t1 t2 c) in
  exists modified_count : nat,
    fst (upsert_contact body' t3 t4 c1) =
      Response 200
        (VObj [("ok", VBool true);
               ("result", VObj [("matched", VNum 1);
                                ("modified", VNat modified_count);
                                ("upsertedId", VNull)])]) /\
    (modified_count <= 1)%nat /\
    List.length (docs (snd (upsert_contact body' t3 t4 c1))) = List.length (docs c1).
Proof.
  intros He He' Ht _ c1.
  pose proof (upsert_contact_then_present body e t1 t2 c He Ht) as P. fold c1 in P.
  destruct (existsb_true_find _ _ P) as [d F].
  rewrite (upsert_contact_writes body' e t3 t4 c1 He' Ht).
  destruct (updateOne_match [("email", e)]
              (contact_update (get_prop "name" (body_or_empty body'))
                 (get_prop "city" (body_or_empty body'))
                 (get_prop "tags" (body_or_empty body')) t3 t4)
              true c1 d F) as (pre & post & Hds & _ & ->).
  simpl. eexists. split; [reflexivity |]. simpl.
  split; [destruct (fields_eqb _ _); lia |].
  rewrite Hds, !length_app. reflexivity.
Qed.

Lemma upsert_contact_twice_one_contact_witness :
  let body := Some (VObj [("email", VStr "rahul@example.com"); ("city", VStr "Pune")]) in
  let body' := Some (VObj [("email", VStr "rahul@example.com"); ("name", VStr "Rahul")]) in
  let c1 := snd (upsert_contact body 1%Z 2%Z seeded) in
  exists modified_count : nat,
    fst (upsert_contact body' 3%Z 4%Z c1) =
      Response 200
        (VObj [("ok", VBool true);
               ("result", VObj [("matched", VNum 1);
                                ("modified", VNat modified_count);
                                ("upsertedId", VNull)])]) /\
    (modified_count <= 1)%nat /\
    List.length (docs (snd (upsert_contact body' 3%Z 4%Z c1))) = List.length (docs c1).
Proof.
  intros body body' c1.
  apply (upsert_contact_twice_one_contact body body' (VStr "rahul@example.com")
           1%Z 2%Z 3%Z 4%Z seeded); reflexivity.
Defined.

(** A valid [/upsert-contact] that matches a contact reports modified 1
    whenever the contact's [updatedAt] is not already the time of the
    write: the [updatedAt] it sets makes the write a change. *)
Theorem upsert_contact_modifies
        (body : option value) (e : value) (t_set t_insert : Z) (c : collection)
        (d : document) :
  get_prop "email" (body_or_empty body) = Some e ->
  truthy (Some e) = true ->
  find (doc_matches [("email", e)]) (docs c) = Some d ->
  assoc "updatedAt" (doc_fields d) <> Some (VDate t_set) ->
  fst (upsert_contact body t_set t_insert c) =
    Response 200
      (VObj [("ok", VBool true);
             ("result", VObj [("matched", VNum 1); ("modified", VNum 1);
                              ("upsertedId", VNull)])]).
Proof.
  intros He Ht F Hne.
  rewrite (upsert_contact_writes body e t_set t_insert c He Ht).
  destruct (updateOne_match [("email", e)]
              (contact_update (get_prop "name" (body_or_empty body))
                 (get_prop "city" (body_or_empty body))
                 (get_prop "tags" (body_or_empty body)) t_set t_insert)
              true c d F) as (pre & post & _ & _ & ->).
  simpl.
  destruct (fields_eqb _ _) eqn:E; [| reflexivity].
  apply fields_eqb_eq in E. exfalso. apply Hne.
  rewrite <- E. apply contact_set_updatedAt.
Qed.

Lemma upsert_contact_modifies_witness :
  fst (upsert_contact (Some (VObj [("email", VStr "aarti@shade.org.in")])) 7%Z 8%Z seeded) =
    Response 200
      (VObj [("ok", VBool true);
             ("result", VObj [("matched", VNum 1); ("modified", VNum 1);
                              ("upsertedId", VNull)])]).
Proof.
  apply (upsert_contact_modifies (Some (VObj [("email", VStr "aarti@shade.org.in")]))
           (VStr "aarti@shade.org.in") 7%Z 8%Z seeded
           (Doc 0%N [("email", VStr "aarti@shade.org.in"); ("name", VStr "Aarti");
                     ("city", VStr "Chennai")])).
  - reflexivity.
  - reflexivity.
  - reflexivity.
  - simpl. discriminate.
Defined.

(** The value [$set] leaves in a field is the last one it gives it. *)
Lemma assoc_apply_set (k : string) (s l : fields) :
  assoc k (apply_set s l) =
  match assoc k (rev s) with
  | Some v => Some v
  | None => assoc k l
  end.
Proof.
  induction s as [| [k0 v0] r IH] using rev_ind; [reflexivity |].
  rewrite apply_set_snoc, rev_unit. simpl.
  destruct (String.eqb k k0) eqn:E.
  - apply String.eqb_eq in E. subst k0. apply assoc_set_field_same.
  - rewrite assoc_set_field_other; [exact IH |].
    intros ->. now rewrite String.eqb_refl in E.
Qed.

Lemma contact_set_given (name city tags : option value) (now : Z) :
  (truthy name = true -> assoc "name" (rev (contact_set name city tags now)) = name) /\
  (truthy city = true -> assoc "city" (rev (contact_set name city tags now)) = city) /\
  (isArray tags = true -> assoc "tags" (rev (contact_set name city tags now)) = tags).
Proof.
  unfold contact_set.
  repeat split; intros T;
    destruct name as [v1 |]; try destruct (truthy (Some v1)) eqn:T1;
    destruct city as [v2 |]; try destruct (truthy (Some v2)) eqn:T2;
    destruct tags as [v3 |]; try destruct (isArray (Some v3)) eqn:T3;
    try discriminate; try reflexivity; simpl in *; congruence.
Qed.

Lemma upsert_contact_stored
        (body : option value) (e : value) (t_set t_insert : Z) (c : collection) :
  get_prop "email" (body_or_empty body) = Some e ->
  truthy (Some e) = true ->
  let name := get_prop "name" (body_or_empty body) in
  let city := get_prop "city" (body_or_empty body) in
  let tags := get_prop "tags" (body_or_empty body) in
  let c' := snd (upsert_contact body t_set t_insert c) in
  exists d',
    In d' (docs c') /\
    doc_matches [("email", e)] d' = true /\
    match find (doc_matches [("email", e)]) (docs c) with
    | Some d => doc_id d' = doc_id d
    | None => docs c' = docs c ++ [d']
    end /\
    (truthy name = true -> assoc "name" (doc_fields d') = name) /\
    (truthy city = true -> assoc "city" (doc_fields d') = city) /\
    (isArray tags = true -> assoc "tags" (doc_fields d') = tags).
Proof.
  intros He Ht name city tags c'.
  destruct (contact_set_given name city tags t_set) as (Gn & Gc & Gt).
  pose proof (upsert_contact_effect body e t_set t_insert c He Ht) as H. simpl in H.
  fold name city tags c' in H.
  destruct (find (doc_matches [("email", e)]) (docs c)) as [d |].
  - destruct H as [H _].
    exists (updated (contact_set name city tags t_set) d).
    split; [exact (proj1 (find_some _ _ H)) |].
    split; [exact (proj2 (find_some _ _ H)) |].
    split; [reflexivity |]. simpl.
    repeat split; intros T; rewrite assoc_apply_set.
    + rewrite (Gn T). destruct name; [reflexivity | discriminate].
    + rewrite (Gc T). destruct city; [reflexivity | discriminate].
    + rewrite (Gt T). destruct tags; [reflexivity | discriminate].
  - eexists. split; [rewrite H; apply in_or_app; right; left; reflexivity |].
    split; [apply email_matches_itself, contact_update_keyed |].
    split; [exact H |].
    unfold upsert_doc. simpl doc_fields.
    repeat split; intros T;
      rewrite assoc_set_field_other by discriminate; rewrite assoc_apply_set.
    + rewrite (Gn T). destruct name; [reflexivity | discriminate].
    + rewrite (Gc T). destruct city; [reflexivity | discriminate].
    + rewrite (Gt T). destruct tags; [reflexivity | discriminate].
Qed.

(** What a valid [/upsert-contact] is given it stores (for an [email]
    that is not an object or an array): a [name] or [city] that counts
    as true and a [tags] that is an array are the values of these fields
    on the contact the request matches or inserts. *)
Theorem upsert_contact_stores_given
        (body : option value) (e : value) (t_set t_insert : Z) (c : collection) :
  get_prop "email" (body_or_empty body) = Some e ->
  truthy (Some e) = true ->
  scalar e = true ->
  let name := get_prop "name" (body_or_empty body) in
  let city := get_prop "city" (body_or_empty body) in
  let tags := get_prop "tags" (body_or_empty body) in
  let c' := snd (upsert_contact body t_set t_insert c) in
  exists d',
    In d' (docs c') /\
    doc_matches [("email", e)] d' = true /\
    match find (doc_matches [("email", e)]) (docs c) with
    | Some d => doc_id d' = doc_id d
    | None => docs c' = docs c ++ [d']
    end /\
    (truthy name = true -> assoc "name" (doc_fields d') = name) /\
    (truthy city = true -> assoc "city" (doc_fields d') = city) /\
    (isArray tags = true -> assoc "tags" (doc_fields d') = tags).
Proof. intros He Ht _. exact (upsert_contact_stored body e t_set t_insert c He Ht). Qed.


Lemma upsert_contact_stores_given_witness :
  let body := Some (VObj [("email", VStr "aarti@shade.org.in"); ("name", VStr "A.");
                          ("city", VStr ""); ("tags", VArr [VStr "Donor"])]) in
  let c' := snd (upsert_contact body 7%Z 8%Z seeded) in
  exists d',
    In d' (docs c') /\
    doc_matches [("email", VStr "aarti@shade.org.in")] d' = true /\
    doc_id d' = 0%N /\
    (truthy (Some (VStr "A.")) = true -> assoc "name" (doc_fields d') = Some (VStr "A.")) /\
    (truthy (Some (VStr "")) = true -> assoc "city" (doc_fields d') = Some (VStr "")) /\
    (isArray (Some (VArr [VStr "Donor"])) = true ->
     assoc "tags" (doc_fields d') = Some (VArr [VStr "Donor"])).
Proof.
  intros body c'.
  apply (upsert_contact_stores_given body (VStr "aarti@shade.org.in") 7%Z 8%Z seeded);
    reflexivity.
Defined.

(** ** [POST /insert-sample] *)

Lemma update_first_nil (f : fields) (ds : list document) :
  existsb (doc_matches f) ds = true -> update_first f [] ds = Some (ds, false).
Proof.
  induction ds as [| d r IH]; simpl; [discriminate |].
  destruct (doc_matches f d).
  - intros _. destruct d as [id l]. simpl. now rewrite fields_eqb_refl.
  - simpl. intros H. now rewrite (IH H).
Qed.

(** An upsert made of [$setOnInsert] only leaves a collection that has
    a match exactly as it is. *)
Lemma updateOne_insert_only_match (f ins : fields) (upsert : bool) (c : collection) :
  existsb (doc_matches f) (docs c) = true ->
  updateOne f (Update [] ins) upsert c =
    ({| Driver.matchedCount := 1; Driver.modifiedCount := 0;
        Driver.upsertedCount := 0; Driver.upsertedId := None |}, c).
Proof.
  intros H. unfold updateOne. simpl. rewrite (update_first_nil f _ H).
  now destruct c.
Qed.

Lemma bulkWrite_insert_only (ops : list (fields * update)) (c : collection) :
  Forall (fun op => u_set (snd op) = []) ops ->
  exists new,
    docs (snd (bulkWrite ops c)) = docs c ++ new /\
    List.length new = b_upsertedCount (fst (bulkWrite ops c)) /\
    b_modifiedCount (fst (bulkWrite ops c)) = 0 /\
    b_matchedCount (fst (bulkWrite ops c)) + b_upsertedCount (fst (bulkWrite ops c)) =
      List.length ops.
Proof.
  intros H. revert c. induction H as [| [f [s ins]] rest Hs _ IH]; intros c.
  - exists []. simpl. now rewrite app_nil_r.
  - simpl in Hs. subst s. simpl. rewrite !bind_eq. simpl.
    destruct (existsb (doc_matches f) (docs c)) eqn:E.
    + rewrite (updateOne_insert_only_match f ins true c E). simpl.
      destruct (IH c) as (new & Hd & Hl & Hm & Hc).
      exists new. rewrite Hd, Hl, Hm. repeat split. lia.
    + apply find_none_existsb in E.
      rewrite (updateOne_upsert_no_match f (Update [] ins) c E). simpl.
      destruct (IH (Col (docs c ++ [upsert_doc (next_oid c) f (Update [] ins)])
                        (N.succ (next_oid c)))) as (new & Hd & Hl & Hm & Hc).
      simpl in Hd.
      exists (upsert_doc (next_oid c) f (Update [] ins) :: new).
      rewrite Hd, Hm, <- app_assoc. simpl. rewrite Hl. repeat split. lia.
Qed.

Lemma sample_ops_insert_only (now : Z) :
  Forall (fun op => u_set (snd op) = []) (sample_ops now).
Proof. repeat constructor. Qed.

Lemma insert_sample_eq (now : Z) (c : collection) :
  insert_sample now c =
    (Response 200
       (ok_body "result"
          (VObj [("bulk",
                  VObj [("matched", VNat (b_matchedCount (fst (bulkWrite (sample_ops now) c))));
                        ("modified",
                         VNat (b_modifiedCount (fst (bulkWrite (sample_ops now) c))));
                        ("upserts",
                         VNat (b_upsertedCount (fst (bulkWrite (sample_ops now) c))))]);
                 ("total",
                  VNat (List.length (docs (snd (bulkWrite (sample_ops now) c)))))])),
     snd (bulkWrite (sample_ops now) c)).
Proof.
  unfold insert_sample, withCol. rewrite !bind_eq.
  cbn [createIndex_email ret fst snd].
  rewrite countDocuments_all. reflexivity.
Qed.

Lemma updateOne_insert_only (f ins : fields) (c : collection) :
  updateOne f (Update [] ins) true c =
  if existsb (doc_matches f) (docs c)
  then ({| Driver.matchedCount := 1; Driver.modifiedCount := 0;
           Driver.upsertedCount := 0; Driver.upsertedId := None |}, c)
  else ({| Driver.matchedCount := 0; Driver.modifiedCount := 0;
           Driver.upsertedCount := 1; Driver.upsertedId := Some (next_oid c) |},
        Col (docs c ++ [upsert_doc (next_oid c) f (Update [] ins)]) (N.succ (next_oid c))).
Proof.
  destruct (existsb (doc_matches f) (docs c)) eqn:E.
  - now apply updateOne_insert_only_match.
  - apply find_none_existsb in E. now apply updateOne_upsert_no_match.
Qed.

(** [/insert-sample] touches no stored document.  It appends, in their
    order, those of the three sample contacts whose email no stored
    document matches, each with its email, name, city, tag and the time
    of the request as [createdAt], and reports them as upserts and the
    other samples as matched, none as modified; the total is the old
    number of documents plus the upserts. *)
Theorem insert_sample_result (now : Z) (c : collection) :
  let missing := List.filter (sample_missing c) samples in
  exists new : list document,
    docs (snd (insert_sample now c)) = docs c ++ new /\
    Forall2 (is_sample now) missing new /\
    fst (insert_sample now c) =
      Response 200
        (VObj [("ok", VBool true);
               ("result",
                VObj [("bulk", VObj [("matched", VNat (3 - List.length missing));
                                     ("modified", VNum 0);
                                     ("upserts", VNat (List.length missing))]);
                      ("total", VNat (List.length (docs c) + List.length missing))])]).
Proof.
  intros missing. subst missing.
  rewrite insert_sample_eq. unfold sample_ops, sample, samples, sample_missing, sample_email.
  cbn [bulkWrite List.filter fst snd]. rewrite !bind_eq.
  rewrite (updateOne_insert_only [("email", VStr "aarti@shade.org.in")]).
  destruct (existsb (doc_matches [("email", VStr "aarti@shade.org.in")]) (docs c)) eqn:E1;
    cbn [fst snd negb];
    rewrite (updateOne_insert_only [("email", VStr "rahul@example.com")]);
    cbn [docs]; rewrite ?existsb_app; cbn [existsb];
    change (doc_matches [("email", VStr "rahul@example.com")]
              (upsert_doc (next_oid c) [("email", VStr "aarti@shade.org.in")] _))
      with false;
    rewrite ?orb_false_r;
    destruct (existsb (doc_matches [("email", VStr "rahul@example.com")]) (docs c)) eqn:E2;
    cbn [fst snd negb];
    rewrite (updateOne_insert_only [("email", VStr "latha@example.com")]);
    cbn [docs]; rewrite ?existsb_app; cbn [existsb];
    repeat match goal with
    | |- context [doc_matches [("email", VStr "latha@example.com")] (upsert_doc ?i ?f ?u)] =>
        change (doc_matches [("email", VStr "latha@example.com")] (upsert_doc i f u))
          with false
    end;
    rewrite ?orb_false_r;
    destruct (existsb (doc_matches [("email", VStr "latha@example.com")]) (docs c)) eqn:E3;
    cbn [fst snd negb ret docs];
    rewrite <- ?app_assoc;
    (eexists; split;
     [ first [reflexivity | symmetry; apply app_nil_r]
     | split;
       [ repeat constructor
       | rewrite ?length_app; cbn [List.length b_matchedCount b_modifiedCount
                                     b_upsertedCount Driver.matchedCount
                                     Driver.modifiedCount Driver.upsertedCount];
         unfold ok_body, VNat; repeat f_equal; lia ] ]).
Qed.

Lemma bulkWrite_all_present (ops : list (fields * update)) (c : collection) :
  Forall (fun op => u_set (snd op) = []) ops ->
  Forall (fun f => existsb (doc_matches f) (docs c) = true) (map fst ops) ->
  bulkWrite ops c =
    ({| b_matchedCount := List.length ops; b_modifiedCount := 0; b_upsertedCount := 0 |}, c).
Proof.
  induction 1 as [| [f [s ins]] rest Hs _ IH]; intros P; [reflexivity |].
  simpl in Hs. subst s. simpl in P. inversion P as [| ? ? Pf Pr]; subst.
  simpl. rewrite !bind_eq.
  rewrite (updateOne_insert_only_match f ins true c Pf). cbn [fst snd].
  rewrite (IH Pr). reflexivity.
Qed.

Lemma bulkWrite_then_present (ops : list (fields * update)) (c : collection) :
  Forall (fun op => u_set (snd op) = [] /\
                    forall id, doc_matches (fst op) (upsert_doc id (fst op) (snd op)) = true)
         ops ->
  Forall (fun f => existsb (doc_matches f) (docs (snd (bulkWrite ops c))) = true)
         (map fst ops).
Proof.
  intros H. revert c. induction H as [| [f u] rest [Hs Hm] Hrest IH]; intros c;
    [constructor |].
  simpl in Hs, Hm. simpl. rewrite !bind_eq. cbn [ret snd].
  assert (Only : Forall (fun op => u_set (snd op) = []) rest).
  { eapply Forall_impl; [| exact Hrest]. now intros op [H _]. }
  constructor; [| apply IH].
  destruct (bulkWrite_insert_only rest (snd (updateOne f u true c)) Only) as (new & -> & _).
  rewrite existsb_app.
  assert (X : existsb (doc_matches f) (docs (snd (updateOne f u true c))) = true).
  { destruct (existsb (doc_matches f) (docs c)) eqn:E.
    - destruct u as [s ins]. simpl in Hs. subst s.
      now rewrite (updateOne_insert_only_match f ins true c E).
    - apply find_none_existsb in E.
      rewrite (updateOne_upsert_no_match f u c E). simpl.
      rewrite existsb_app. cbn [existsb]. rewrite Hm.
      now rewrite orb_false_r, orb_true_r. }
  now rewrite X.
Qed.

(** [/insert-sample] is idempotent: a second call, at whatever time,
    finds all three contacts (matched 3, modified 0, upserts 0) and
    leaves the collection exactly as the first call left it. *)
Theorem insert_sample_twice (now now' : Z) (c : collection) :
  let c1 := snd (insert_sample now c) in
  insert_sample now' c1 =
    (Response 200
       (VObj [("ok", VBool true);
              ("result",
               VObj [("bulk", VObj [("matched", VNum 3); ("modified", VNum 0);
                                    ("upserts", VNum 0)]);
                     ("total", VNat (List.length (docs c1)))])]),
     c1).
Proof.
  intros c1. rewrite insert_sample_eq.
  assert (P : Forall (fun f => existsb (doc_matches f) (docs c1) = true)
                     (map fst (sample_ops now'))).
  { subst c1. rewrite insert_sample_eq. cbn [snd].
    change (map fst (sample_ops now')) with (map fst (sample_ops now)).
    apply bulkWrite_then_present.
    repeat constructor. }
  rewrite (bulkWrite_all_present (sample_ops now') c1 (sample_ops_insert_only now') P).
  reflexivity.
Qed.

(** ** Running the script again *)

Lemma rewrite_first_cons (f s : fields) (x : document) (r : list document) :
  rewrite_first f s (x :: r) =
  if doc_matches f x then updated s x :: r else x :: rewrite_first f s r.
Proof.
  unfold rewrite_first. simpl. destruct (doc_matches f x); [reflexivity |].
  now destruct (update_first f s r) as [[r' ch] |].
Qed.

Lemma updateOne_snd (f : fields) (u : update) (upsert : bool) (c : collection) :
  snd (updateOne f u upsert c) =
  if upsert && negb (existsb (doc_matches f) (docs c))
  then Col (docs c ++ [upsert_doc (next_oid c) f u]) (N.succ (next_oid c))
  else Col (rewrite_first f (u_set u) (docs c)) (next_oid c).
Proof.
  unfold rewrite_first.
  destruct (find (doc_matches f) (docs c)) as [d |] eqn:F.
  - rewrite (find_some_existsb _ _ _ F), andb_false_r.
    destruct (update_first_some f (u_set u) _ _ F) as (pre & post & _ & _ & _ & Hu).
    unfold updateOne. now rewrite Hu.
  - pose proof F as E. apply find_none_existsb in E. rewrite E.
    rewrite (update_first_none f (u_set u) _ F).
    destruct upsert.
    + now rewrite (updateOne_upsert_no_match f u c F).
    + rewrite (updateOne_no_match f u c F). now destruct c.
Qed.

Lemma doc_matches_updated (f s : fields) (d : document) :
  untouched f s -> doc_matches f (updated s d) = doc_matches f d.
Proof.
  intros D. destruct d as [id l]. unfold updated. simpl doc_id. simpl doc_fields.
  now apply doc_matches_apply_set.
Qed.

Lemma rewrite_first_idempotent (f s : fields) (ds : list document) :
  untouched f s -> rewrite_first f s (rewrite_first f s ds) = rewrite_first f s ds.
Proof.
  intros D. induction ds as [| x r IH]; [reflexivity |].
  rewrite rewrite_first_cons. destruct (doc_matches f x) eqn:E.
  - rewrite rewrite_first_cons, (doc_matches_updated f s x D), E.
    now rewrite updated_idempotent.
  - now rewrite rewrite_first_cons, E, IH.
Qed.

Lemma rewrite_first_existsb (f g s : fields) (ds : list document) :
  untouched g s ->
  existsb (doc_matches g) (rewrite_first f s ds) = existsb (doc_matches g) ds.
Proof.
  intros D. induction ds as [| x r IH]; [reflexivity |].
  rewrite rewrite_first_cons. destruct (doc_matches f x); simpl.
  - now rewrite (doc_matches_updated g s x D).
  - now rewrite IH.
Qed.

Lemma rewrite_first_app_l (f s : fields) (pre post : list document) :
  existsb (doc_matches f) pre = true ->
  rewrite_first f s (pre ++ post) = rewrite_first f s pre ++ post.
Proof.
  induction pre as [| x r IH]; simpl; [discriminate |].
  rewrite !rewrite_first_cons. destruct (doc_matches f x); simpl; [reflexivity |].
  intros H. now rewrite (IH H).
Qed.

Lemma rewrite_first_app_r (f s : fields) (pre post : list document) :
  existsb (doc_matches f) pre = false ->
  rewrite_first f s (pre ++ post) = pre ++ rewrite_first f s post.
Proof.
  induction pre as [| x r IH]; simpl; [reflexivity |].
  rewrite rewrite_first_cons. destruct (doc_matches f x); simpl; [discriminate |].
  intros H. now rewrite (IH H).
Qed.

(** Setting a field again replaces what the first setting wrote. *)
Lemma set_field_absorbs (k : string) (v w : value) (l : fields) :
  set_field k v (set_field k w l) = set_field k v l.
Proof.
  unfold set_field at 2. destruct (has_field k l) eqn:H.
  - unfold set_field. rewrite has_field_overwrite, H, map_map.
    apply map_ext. intros [k' x]. simpl.
    destruct (String.eqb k k') eqn:E; simpl; now rewrite E.
  - unfold set_field.
    assert (H' : has_field k (l ++ [(k, w)]) = true).
    { unfold has_field. rewrite existsb_app. simpl. rewrite String.eqb_refl.
      now rewrite orb_true_r. }
    rewrite H', H, map_app. simpl. rewrite String.eqb_refl. f_equal.
    rewrite <- (map_id l) at 2. apply map_ext_in. intros [k' x] Hin. simpl.
    destruct (String.eqb k k') eqn:E; [| reflexivity].
    exfalso. unfold has_field in H.
    assert (existsb (fun kv => String.eqb k (fst kv)) l = true); [| congruence].
    apply existsb_exists. now exists (k', x).
Qed.

(** Two rewrites of one field by different filters: on documents the
    first rewrite leaves as they are, doing the second, the first and
    the second again comes to doing the second once. *)
Lemma rewrite_first_sandwich (fa fm : fields) (k : string) (a m : value)
      (ds : list document) :
  untouched fa [(k, m)] -> untouched fa [(k, a)] ->
  untouched fm [(k, m)] -> untouched fm [(k, a)] ->
  rewrite_first fa [(k, a)] ds = ds ->
  rewrite_first fm [(k, m)] (rewrite_first fa [(k, a)] (rewrite_first fm [(k, m)] ds)) =
  rewrite_first fm [(k, m)] ds.
Proof.
  intros Dam Daa Dmm Dma.
  induction ds as [| x r IH]; intros Fix; [reflexivity |].
  rewrite rewrite_first_cons in Fix.
  rewrite (rewrite_first_cons fm).
  destruct (doc_matches fm x) eqn:Em, (doc_matches fa x) eqn:Ea.
  - rewrite rewrite_first_cons, (doc_matches_updated fa _ x Dam), Ea.
    rewrite rewrite_first_cons, (doc_matches_updated fm _ _ Dma),
      (doc_matches_updated fm _ x Dmm), Em.
    f_equal. unfold updated. simpl. now rewrite !set_field_absorbs.
  - injection Fix as Fix.
    rewrite rewrite_first_cons, (doc_matches_updated fa _ x Dam), Ea, Fix.
    rewrite rewrite_first_cons, (doc_matches_updated fm _ x Dmm), Em.
    now rewrite updated_idempotent.
  - injection Fix as Fix.
    rewrite rewrite_first_cons, Ea, Fix.
    rewrite rewrite_first_cons, Em.
    now rewrite (rewrite_first_idempotent fm _ r Dmm).
  - injection Fix as Fix.
    rewrite rewrite_first_cons, Ea, rewrite_first_cons, Em.
    now rewrite (IH Fix).
Qed.

Lemma rewrite_first_nil_set (f : fields) (ds : list document) :
  rewrite_first f [] ds = ds.
Proof.
  induction ds as [| x r IH]; [reflexivity |].
  rewrite rewrite_first_cons, IH. destruct (doc_matches f x); [| reflexivity].
  now destruct x.
Qed.

Lemma rewrite_first_no_match (f s : fields) (ds : list document) :
  existsb (doc_matches f) ds = false -> rewrite_first f s ds = ds.
Proof.
  intros H. unfold rewrite_first.
  apply find_none_existsb in H. now rewrite (update_first_none f s ds H).
Qed.

Lemma script_fixed_point (now : Z) (c : collection) :
  existsb (doc_matches aarti_filter) (docs c) = true ->
  existsb (doc_matches missing_filter) (docs c) = true ->
  rewrite_first missing_filter (u_set stepB_update)
    (rewrite_first aarti_filter (u_set stepA_update) (docs c)) = docs c ->
  after_C now c = c.
Proof.
  intros HA HM Fix.
  assert (FixM : rewrite_first missing_filter (u_set stepB_update) (docs c) = docs c).
  { transitivity
      (rewrite_first missing_filter (u_set stepB_update)
         (rewrite_first missing_filter (u_set stepB_update)
            (rewrite_first aarti_filter (u_set stepA_update) (docs c)))).
    - now rewrite Fix.
    - rewrite rewrite_first_idempotent by apply untouched_email_city. exact Fix. }
  unfold after_C, after_B, after_A, after_seed.
  rewrite (updateOne_snd aarti_filter seed_update true c), HA.
  cbn [andb negb docs next_oid u_set seed_update].
  rewrite rewrite_first_nil_set.
  rewrite (updateOne_snd aarti_filter stepA_update false). cbn [andb docs next_oid].
  rewrite (updateOne_snd missing_filter stepB_update false). cbn [andb docs next_oid].
  rewrite Fix.
  rewrite (updateOne_snd missing_filter (stepC_update now) true). cbn [docs next_oid].
  rewrite HM. cbn [andb negb].
  change (u_set (stepC_update now)) with (u_set stepB_update).
  rewrite FixM. now destruct c.
Qed.

Lemma script_result_fixed (now : Z) (c : collection) :
  rewrite_first missing_filter (u_set stepB_update)
    (rewrite_first aarti_filter (u_set stepA_update) (docs (after_C now c))) =
  docs (after_C now c).
Proof.
  assert (ZA : existsb (doc_matches aarti_filter) (docs (after_A c)) = true).
  { unfold after_A. rewrite updateOne_snd. cbn [andb docs].
    rewrite rewrite_first_existsb by apply untouched_email_city.
    apply after_seed_has_aarti. }
  assert (ZFix : rewrite_first aarti_filter (u_set stepA_update) (docs (after_A c)) =
                 docs (after_A c)).
  { unfold after_A. rewrite updateOne_snd. cbn [andb docs].
    apply rewrite_first_idempotent, untouched_email_city. }
  unfold after_C, after_B.
  rewrite (updateOne_snd missing_filter stepB_update false). cbn [andb docs next_oid].
  rewrite (updateOne_snd missing_filter (stepC_update now) true). cbn [docs next_oid].
  rewrite rewrite_first_existsb by apply untouched_email_city.
  change (u_set (stepC_update now)) with (u_set stepB_update).
  destruct (existsb (doc_matches missing_filter) (docs (after_A c))) eqn:ZM;
    cbn [andb negb docs].
  - rewrite (rewrite_first_idempotent missing_filter) by apply untouched_email_city.
    apply rewrite_first_sandwich; try apply untouched_email_city. exact ZFix.
  - rewrite (rewrite_first_no_match missing_filter _ _ ZM).
    rewrite (rewrite_first_app_l aarti_filter _ _ _ ZA), ZFix.
    rewrite (rewrite_first_app_r missing_filter _ _ _ ZM).
    reflexivity.
Qed.

(** Running the script again changes nothing: on the collection a run
    leaves, another run, at whatever time, inserts no document and
    leaves every stored document as it is. *)
Theorem script_rerun_changes_nothing (now now' : Z) (c : collection) :
  snd (runUpdateUpsertDemo now' (snd (runUpdateUpsertDemo now c))) =
  snd (runUpdateUpsertDemo now c).
Proof.
  rewrite !runUpdateUpsertDemo_eq. cbn [snd].
  apply script_fixed_point.
  - unfold after_C. rewrite updateOne_existsb by apply untouched_email_city.
    unfold after_B. rewrite updateOne_existsb by apply untouched_email_city.
    unfold after_A. rewrite updateOne_existsb by apply untouched_email_city.
    now rewrite after_seed_has_aarti.
  - unfold after_C. rewrite updateOne_existsb by apply untouched_email_city.
    destruct (existsb (doc_matches missing_filter) (docs (after_B c))); reflexivity.
  - apply script_result_fixed.
Qed.

(** ** After [/clear-data] *)

(** After [/clear-data] a valid [/upsert-contact] (its [email] not an
    object or an array) is a creation, whatever the collection held:
    matched 0, modified 0 and the
    [upsertedId] of the one document then stored, an id no document had
    before. *)
Theorem clear_then_upsert_contact
        (body : option value) (e : value) (t_set t_insert : Z) (c : collection) :
  get_prop "email" (body_or_empty body) = Some e ->
  truthy (Some e) = true ->
  scalar e = true ->
  let c0 := snd (clear_data c) in
  exists d : document,
    upsert_contact body t_set t_insert c0 =
      (Response 200
         (VObj [("ok", VBool true);
                ("result", VObj [("matched", VNum 0); ("modified", VNum 0);
                                 ("upsertedId", VOid (next_oid c))])]),
       Col [d] (N.succ (next_oid c))) /\
    doc_id d = next_oid c /\
    assoc "email" (doc_fields d) = Some e /\
    assoc "createdAt" (doc_fields d) = Some (VDate t_insert) /\
    assoc "updatedAt" (doc_fields d) = Some (VDate t_set) /\
    (well_formed c -> ~ In (doc_id d) (map doc_id (docs c))).
Proof.
  intros He Ht _ c0. subst c0.
  rewrite (upsert_contact_writes body e t_set t_insert _ He Ht).
  eexists. split; [reflexivity |].
  split; [reflexivity |].
  split; [apply contact_update_keyed |].
  unfold upsert_doc. cbn [doc_fields u_set u_setOnInsert contact_update].
  split; [apply (assoc_apply_set "createdAt" [("createdAt", VDate t_insert)]) |].
  split.
  - rewrite (assoc_apply_set "updatedAt" [("createdAt", VDate t_insert)]).
    cbn [rev app assoc]. simpl String.eqb. cbv iota.
    apply contact_set_updatedAt.
  - intros [_ Fresh] Hin.
    apply in_map_iff in Hin. destruct Hin as (d & Hid & Hd).
    change (doc_id d = next_oid c) in Hid.
    rewrite Forall_forall in Fresh. specialize (Fresh d Hd). lia.
Qed.

Lemma clear_then_upsert_contact_witness :
  let body := Some (VObj [("email", VStr "latha@example.com"); ("city", VStr "Mumbai")]) in
  exists d : document,
    upsert_contact body 7%Z 8%Z (snd (clear_data seeded)) =
      (Response 200
         (VObj [("ok", VBool true);
                ("result", VObj [("matched", VNum 0); ("modified", VNum 0);
                                 ("upsertedId", VOid (next_oid seeded))])]),
       Col [d] (N.succ (next_oid seeded))) /\
    doc_id d = next_oid seeded /\
    assoc "email" (doc_fields d) = Some (VStr "latha@example.com") /\
    assoc "createdAt" (doc_fields d) = Some (VDate 8%Z) /\
    assoc "updatedAt" (doc_fields d) = Some (VDate 7%Z) /\
    (well_formed seeded -> ~ In (doc_id d) (map doc_id (docs seeded))).
Proof.
  intros body.
  apply (clear_then_upsert_contact body (VStr "latha@example.com") 7%Z 8%Z seeded);
    reflexivity.
Defined.

(** ** [GET /list-contacts] on any query *)

Example trim_examples :
  trim "  a b  " = "a b" /\
  trim (nbsp ++ " Pune" ++ nbsp)%string = "Pune" /\
  trim (nbsp ++ "  ")%string = "" /\
  parseInt (nbsp ++ "7")%string = Num 7.
Proof. repeat split. Qed.

Example qToString_examples :
  qToString (QArr [QStr "2"; QStr "3"]) = "2,3" /\
  qToString (QArr []) = "" /\
  qToString (QObj [("a", QStr "1")]) = "[object Object]".
Proof. repeat split. Qed.

(** On string parameters, the handler is [list_contacts]. *)
Lemma list_contacts_request_strings (q : query) (p ps : Z) (c : collection) :
  page q = Num p ->
  pageSize q = Num ps ->
  list_contacts_request
    {| r_page := option_map QStr (q_page q); r_pageSize := option_map QStr (q_pageSize q);
       r_city := option_map QStr (q_city q); r_tag := option_map QStr (q_tag q) |} c =
  Some (list_contacts q c).
Proof.
  intros Hp Hps.
  assert (D : forall (o : option string) (d : string),
             q_or_default (option_map QStr o) d = QStr (or_default o d)).
  { intros [s |] d; simpl; [now destruct (String.eqb s "") | reflexivity]. }
  unfold list_contacts_request, q_trim, raw_page, raw_pageSize. simpl.
  rewrite !D. simpl. fold (page q) (pageSize q).
  unfold list_contacts. rewrite Hp, Hps. reflexivity.
Qed.














(** ** From [/upsert-contact] to [/list-contacts] *)


